(** * A shallow embedding of [search_engine.py]

    The engine of [src/search_engine.py] (class [SearchEngine]) is embedded
    as a record of its five attributes and a state-and-exception monad over
    that record.  Python integers are [Z], Python dictionaries are [gmap]s
    (an association list where the iteration order is observable), Python
    sets are [gset]s, and Python floats are idealised as real numbers:
    [math.log] is [ln], true division is division in [R], and [round] is
    rounding half to even on the reals.  A string is a sequence of code
    points below 256.  The request handlers of [src/main.py] that reach
    the engine are methods of the same monad, over the one engine the
    module creates. *)

From Stdlib Require Import ZArith String Ascii List Reals Lra Lia.
From stdpp Require Import gmap strings list fin_maps sorting.

Local Open Scope Z_scope.

(** ** Characters and the tokenizer ([SearchEngine._tokenize]) *)

Module Tokenizer.

Definition code (c : ascii) : N := N_of_ascii c.

Definition in_range (lo hi : N) (c : ascii) : bool :=
  ((lo <=? code c) && (code c <=? hi))%N.

(** [str.lower] on one code point below 256: [A-Z] and the Latin-1 capitals
    (all of 192..222 but the multiplication sign 215) move up by 32. *)
Definition char_lower (c : ascii) : ascii :=
  if in_range 65 90 c || (in_range 192 222 c && negb (code c =? 215)%N)
  then ascii_of_N (code c + 32)
  else c.

(** The class [\s] of a [str] pattern, which is also what [str.split]
    splits on: tab to carriage return, the four separators 28..31, space,
    NEL and the no-break space. *)
Definition isspace (c : ascii) : bool :=
  in_range 9 13 c || in_range 28 32 c || (code c =? 133)%N || (code c =? 160)%N.

(** The class [[a-z0-9]]. *)
Definition is_lower_alnum (c : ascii) : bool :=
  in_range 97 122 c || in_range 48 57 c.

Fixpoint str_map (f : ascii → ascii) (s : string) : string :=
  match s with
  | EmptyString => EmptyString
  | String c s' => String (f c) (str_map f s')
  end.

Definition lower (text : string) : string := str_map char_lower text.

(** [re.sub(r'[^a-z0-9\s]', ' ', text)] *)
Definition sub_non_alnum (text : string) : string :=
  str_map (λ c, if is_lower_alnum c || isspace c then c else " "%char) text.

Definition flush (cur : string) : list string :=
  match cur with
  | EmptyString => []
  | _ => [cur]
  end.

(** [text.split()]: [cur] is the word being read. *)
Fixpoint split_from (cur : string) (text : string) : list string :=
  match text with
  | EmptyString => flush cur
  | String c rest =>
      if isspace c then flush cur ++ split_from EmptyString rest
      else split_from (cur +:+ String c EmptyString) rest
  end.

Definition split (text : string) : list string := split_from EmptyString text.

Definition nonempty (word : string) : bool :=
  match word with
  | EmptyString => false
  | _ => true
  end.

Definition _tokenize (text : string) : list string :=
  let text := lower text in
  let text := sub_non_alnum text in
  let words := List.filter nonempty (split text) in
  words.

End Tokenizer.
Export Tokenizer.

(** ** Data model *)

Module Document.
Record t := mk { id : Z; title : string; content : string }.
End Document.

(** A dictionary that is iterated, [self.documents] and the local
    [doc_scores]: an association list in insertion order, which is the
    order [values()] and [items()] follow. *)
Module OrderedDict.
Section ordered_dict.
Context {V : Type}.

Fixpoint getitem (d : list (Z * V)) (k : Z) : option V :=
  match d with
  | [] => None
  | (k', v) :: d' => if decide (k' = k) then Some v else getitem d' k
  end.

Fixpoint setitem (d : list (Z * V)) (k : Z) (v : V) : list (Z * V) :=
  match d with
  | [] => [(k, v)]
  | (k', v') :: d' =>
      if decide (k' = k) then (k, v) :: d' else (k', v') :: setitem d' k v
  end.

Definition values (d : list (Z * V)) : list V := d.*2.
Definition items (d : list (Z * V)) : list (Z * V) := d.

End ordered_dict.
End OrderedDict.

Definition len {A} (l : list A) : Z := Z.of_nat (length l).

(** An entry of the inverted index is the two-element list
    [[doc_id, positions]]. *)
Record SearchEngine := mkEngine {
  inverted_index : gmap string (list (Z * list Z));
  documents : list (Z * Document.t);
  doc_word_counts : gmap Z Z;
  word_doc_frequency : gmap string Z;
  next_doc_id : Z
}.

(** [SearchEngine.__init__] *)
Definition __init__ : SearchEngine :=
  {| inverted_index := ∅; documents := []; doc_word_counts := ∅;
     word_doc_frequency := ∅; next_doc_id := 1 |}.

Definition set_inverted_index (v : gmap string (list (Z * list Z))) (e : SearchEngine) :=
  {| inverted_index := v; documents := documents e;
     doc_word_counts := doc_word_counts e;
     word_doc_frequency := word_doc_frequency e; next_doc_id := next_doc_id e |}.

Definition set_documents (v : list (Z * Document.t)) (e : SearchEngine) :=
  {| inverted_index := inverted_index e; documents := v;
     doc_word_counts := doc_word_counts e;
     word_doc_frequency := word_doc_frequency e; next_doc_id := next_doc_id e |}.

Definition set_doc_word_counts (v : gmap Z Z) (e : SearchEngine) :=
  {| inverted_index := inverted_index e; documents := documents e;
     doc_word_counts := v;
     word_doc_frequency := word_doc_frequency e; next_doc_id := next_doc_id e |}.

Definition set_word_doc_frequency (v : gmap string Z) (e : SearchEngine) :=
  {| inverted_index := inverted_index e; documents := documents e;
     doc_word_counts := doc_word_counts e;
     word_doc_frequency := v; next_doc_id := next_doc_id e |}.

Definition set_next_doc_id (v : Z) (e : SearchEngine) :=
  {| inverted_index := inverted_index e; documents := documents e;
     doc_word_counts := doc_word_counts e;
     word_doc_frequency := word_doc_frequency e; next_doc_id := v |}.

(** ** The monad of methods: the engine is threaded, an exception ends the
    call and leaves the engine as it was when raised. *)

Inductive exn := KeyError | ZeroDivisionError | ValueError | NotFound.

Inductive outcome (A : Type) :=
  | Returns (a : A)
  | Raises (x : exn).
Arguments Returns {A} a.
Arguments Raises {A} x.

Definition M (A : Type) : Type := SearchEngine → outcome A * SearchEngine.

#[export] Instance M_ret : MRet M := λ A a e, (Returns a, e).

#[export] Instance M_bind : MBind M := λ A B k m e,
  match m e with
  | (Returns a, e') => k a e'
  | (Raises x, e') => (Raises x, e')
  end.

Definition raise {A} (x : exn) : M A := λ e, (Raises x, e).
Definition gets {A} (f : SearchEngine → A) : M A := λ e, (Returns (f e), e).
Definition modify (f : SearchEngine → SearchEngine) : M unit := λ e, (Returns tt, f e).

(** A [for] loop whose body updates the local variables [b]. *)
Fixpoint for_each {A B} (l : list A) (body : B → A → M B) (b : B) : M B :=
  match l with
  | [] => mret b
  | a :: l' => b' ← body b a; for_each l' body b'
  end.

(** *** Primitive operations on the attributes *)

(** [self.inverted_index[word]]: the index is a [defaultdict(list)], a
    missing key is inserted with an empty list. *)
Definition inverted_index_getitem (word : string) : M (list (Z * list Z)) :=
  index ← gets inverted_index;
  match index !! word with
  | Some entries => mret entries
  | None => modify (set_inverted_index (<[word := []]> index));; mret []
  end.

(** The lists of the index are mutated in place; the model writes the
    mutated list back under its key. *)
Definition inverted_index_store (word : string) (entries : list (Z * list Z)) : M unit :=
  index ← gets inverted_index;
  modify (set_inverted_index (<[word := entries]> index)).

(** [self.word_doc_frequency[word] += 1] on a [defaultdict(int)]. *)
Definition word_doc_frequency_incr (word : string) : M unit :=
  freq ← gets word_doc_frequency;
  modify (set_word_doc_frequency (<[word := default 0 (freq !! word) + 1]> freq)).

(** [self.documents[doc_id]] *)
Definition documents_getitem (doc_id : Z) : M Document.t :=
  docs ← gets documents;
  match OrderedDict.getitem docs doc_id with
  | Some doc => mret doc
  | None => raise KeyError
  end.

(** [a / b] on integers *)
Definition truediv (a b : Z) : M R :=
  if decide (b = 0) then raise ZeroDivisionError else mret (IZR a / IZR b)%R.

(** [math.log(x)] *)
Definition math_log (x : R) : M R :=
  if Rlt_dec 0 x then mret (ln x) else raise ValueError.

(** [round(x, ndigits)]: the nearest multiple of [10^-ndigits], a tie
    going to the even one. *)
Definition round_half_even (x : R) : Z :=
  let f := Zfloor x in
  let r := (x - IZR f)%R in
  if Rlt_dec r (1 / 2) then f
  else if Rlt_dec (1 / 2) r then f + 1
  else if Z.even f then f else f + 1.

Definition round (x : R) (ndigits : Z) : R :=
  (IZR (round_half_even (x * IZR (10 ^ ndigits))) / IZR (10 ^ ndigits))%R.

(** [l[:k]] *)
Definition slice_to {A} (l : list A) (k : Z) : list A :=
  if decide (0 ≤ k) then take (Z.to_nat k) l else take (Z.to_nat (len l + k)) l.

(** [enumerate(words)] *)
Definition enumerate {A} (l : list A) : list (Z * A) := imap (λ i a, (Z.of_nat i, a)) l.

(** ** The methods of [SearchEngine] *)

(** The loop of [_calculate_tf] over the entries of one word: the length
    of the positions of the first entry for [doc_id], 0 when there is
    none. *)
Fixpoint count_in (entries : list (Z * list Z)) (doc_id : Z) : Z :=
  match entries with
  | [] => 0
  | (doc_id_in_index, positions) :: rest =>
      if decide (doc_id_in_index = doc_id) then len positions
      else count_in rest doc_id
  end.

Definition _calculate_tf (word : string) (doc_id : Z) : M R :=
  index ← gets inverted_index;
  word_count ←
    (if decide (word ∈ dom index) then
       entries ← inverted_index_getitem word;
       mret (count_in entries doc_id)
     else mret 0);
  counts ← gets doc_word_counts;
  let total_words := default 1 (counts !! doc_id) in
  if decide (0 < total_words) then truediv word_count total_words
  else mret 0%R.

Definition _calculate_idf (word : string) : M R :=
  docs ← gets documents;
  let total_docs := len docs in
  if decide (total_docs = 0) then mret 0%R
  else
    freq ← gets word_doc_frequency;
    let docs_with_word := default 0 (freq !! word) in
    if decide (docs_with_word = 0) then mret 0%R
    else
      ratio ← truediv total_docs docs_with_word;
      math_log ratio.

Definition _calculate_tfidf (word : string) (doc_id : Z) : M R :=
  tf ← _calculate_tf word doc_id;
  idf ← _calculate_idf word;
  mret (tf * idf)%R.

(** The inner loop of [add_document]: [positions.append(position)] on the
    first entry of [doc_id]; [None] when the loop ends with [found] still
    [False]. *)
Fixpoint append_position (entries : list (Z * list Z)) (doc_id position : Z)
  : option (list (Z * list Z)) :=
  match entries with
  | [] => None
  | (existing_doc_id, positions) :: rest =>
      if decide (existing_doc_id = doc_id)
      then Some ((existing_doc_id, positions ++ [position]) :: rest)
      else cons (existing_doc_id, positions) <$> append_position rest doc_id position
  end.

(** The body of the loop over [enumerate(words)]; the local set
    [unique_words_in_doc] is the loop's variable. *)
Definition index_word (doc_id : Z) (unique_words_in_doc : gset string)
    (pw : Z * string) : M (gset string) :=
  let '(position, word) := pw in
  unique_words_in_doc ←
    (if decide (word ∉ unique_words_in_doc) then
       word_doc_frequency_incr word;;
       mret ({[word]} ∪ unique_words_in_doc)
     else mret unique_words_in_doc);
  entries ← inverted_index_getitem word;
  match append_position entries doc_id position with
  | Some entries' => inverted_index_store word entries'
  | None =>
      entries ← inverted_index_getitem word;
      inverted_index_store word (entries ++ [(doc_id, [position])])
  end;;
  mret unique_words_in_doc.

Definition add_document (title content : string) : M Z :=
  doc_id ← gets next_doc_id;
  modify (set_next_doc_id (doc_id + 1));;
  let doc := Document.mk doc_id title content in
  docs ← gets documents;
  modify (set_documents (OrderedDict.setitem docs doc_id doc));;
  let words := _tokenize content in
  counts ← gets doc_word_counts;
  modify (set_doc_word_counts (<[doc_id := len words]> counts));;
  for_each (enumerate words) (index_word doc_id) ∅;;
  mret doc_id.

Module SearchResult.
Record t := mk {
  id : Z; title : string; content : string; snippet : string; score : R
}.
End SearchResult.

(** The candidate documents: those with an entry under a query word. *)
Definition find_candidates (query_words : list string) : M (gset Z) :=
  for_each query_words (λ candidate_docs word,
    index ← gets inverted_index;
    if decide (word ∈ dom index) then
      entries ← inverted_index_getitem word;
      mret (foldl (λ c (entry : Z * list Z), {[entry.1]} ∪ c) candidate_docs entries)
    else mret candidate_docs) ∅.

(** [doc_scores]: the sum over the query words of the TF-IDF scores.  A
    Python set is iterated in an order the language leaves open;
    [elements] fixes one, and no statement below depends on which. *)
Definition score_candidates (query_words : list string) (candidate_docs : gset Z)
  : M (list (Z * R)) :=
  for_each (elements candidate_docs) (λ doc_scores doc_id,
    score ← for_each query_words (λ score word,
               s ← _calculate_tfidf word doc_id; mret (score + s)%R) 0%R;
    mret (OrderedDict.setitem doc_scores doc_id score)) [].

(** [sorted(items, key=lambda x: x[1], reverse=True)]: a stable sort, the
    larger score first, equal scores in the order of the input. *)
Fixpoint insert_by_score (x : Z * R) (l : list (Z * R)) : list (Z * R) :=
  match l with
  | [] => [x]
  | y :: l' =>
      if Rlt_dec x.2 y.2 then y :: insert_by_score x l' else x :: y :: l'
  end.

Definition sorted_by_score (items : list (Z * R)) : list (Z * R) :=
  foldr insert_by_score [] items.

Definition make_snippet (content : string) : string :=
  if decide (200 < Z.of_nat (String.length content))
  then substring 0 200 content +:+ "..."
  else content.

Definition build_results (top_docs : list (Z * R)) : M (list SearchResult.t) :=
  for_each top_docs (λ results (entry : Z * R),
    let '(doc_id, score) := entry in
    doc ← documents_getitem doc_id;
    let snippet := make_snippet (Document.content doc) in
    mret (results ++ [SearchResult.mk doc_id (Document.title doc)
                        (Document.content doc) snippet (round score 4)])) [].

Definition search (query : string) (top_k : Z) : M (list SearchResult.t) :=
  let query_words := _tokenize query in
  if decide (query_words = []) then mret []
  else
    candidate_docs ← find_candidates query_words;
    if decide (candidate_docs = ∅) then mret []
    else
      doc_scores ← score_candidates query_words candidate_docs;
      let sorted_docs := sorted_by_score (OrderedDict.items doc_scores) in
      let top_docs := slice_to sorted_docs top_k in
      build_results top_docs.

Record Stats := mkStats {
  total_documents : Z;
  total_words_indexed : Z;
  unique_words : Z;
  average_words_per_document : R
}.

Definition get_stats : M Stats :=
  counts ← gets doc_word_counts;
  let total_words := foldr Z.add 0 (map_to_list counts).*2 in
  index ← gets inverted_index;
  let unique_words := Z.of_nat (size index) in
  docs ← gets documents;
  average ←
    (if decide (docs = []) then mret 0%R
     else q ← truediv total_words (len docs); mret (round q 2));
  mret (mkStats (len docs) total_words unique_words average).

(** Each returned dictionary has the three fields of the document. *)
Definition get_all_documents : M (list Document.t) :=
  docs ← gets documents;
  mret (map (λ doc, Document.mk (Document.id doc) (Document.title doc)
                      (Document.content doc)) (OrderedDict.values docs)).

(** Modelled from the spec: the source has no method that looks one
    document up by its id.  The spec's [get(id)] of the Document Store
    "returns the record or signals NotFound"; it reads [self.documents],
    the store the source keeps. *)
Definition get (doc_id : Z) : M Document.t :=
  docs ← gets documents;
  match OrderedDict.getitem docs doc_id with
  | Some doc => mret doc
  | None => raise NotFound
  end.

(** The engine after ingesting a list of (title, content) in order. *)
Definition ingest (docs : list (string * string)) : M (list Z) :=
  for_each docs (λ ids tc, doc_id ← add_document tc.1 tc.2; mret (ids ++ [doc_id])) [].

Definition engine_after (docs : list (string * string)) : SearchEngine :=
  (ingest docs __init__).2.

Definition corpus_cat_dog : list (string * string) :=
  [("A", "the cat sat on the mat"); ("B", "the dog sat on the log")]%string.

(** ** The request handlers of [main.py] *)

Module Api.

(** [str.strip()] without arguments removes the whitespace at both ends. *)
Fixpoint lstrip (s : string) : string :=
  match s with
  | EmptyString => EmptyString
  | String c s' => if isspace c then lstrip s' else s
  end.

Fixpoint rstrip (s : string) : string :=
  match s with
  | EmptyString => EmptyString
  | String c s' =>
      match rstrip s' with
      | EmptyString => if isspace c then EmptyString else String c EmptyString
      | r => String c r
      end
  end.

Definition strip (s : string) : string := rstrip (lstrip s).

(** The dictionary a search request is answered with; the empty-query
    answer has a message and no count. *)
Record SearchResponse := mkSearchResponse {
  results : list SearchResult.t;
  query : string;
  count : option Z;
  message : option string
}.

(** [GET /search] *)
Definition search (q : string) (top_k : Z) : M SearchResponse :=
  if decide (strip q = EmptyString)
  then mret (mkSearchResponse [] q None (Some "Empty query"%string))
  else
    results ← search q top_k;
    mret (mkSearchResponse results q (Some (len results)) None).

(** The answer to [POST /documents]. *)
Record AddResponse := mkAddResponse {
  add_id : Z;
  add_message : string;
  add_title : string
}.

(** [POST /documents] *)
Definition add_document (title content : string) : M AddResponse :=
  doc_id ← add_document title content;
  mret (mkAddResponse doc_id "Document indexed successfully" title).

(** The answer to [GET /documents]. *)
Record ListResponse := mkListResponse {
  list_documents : list Document.t;
  list_count : Z
}.

(** [GET /documents] *)
Definition get_all_documents : M ListResponse :=
  documents ← get_all_documents;
  mret (mkListResponse documents (len documents)).

End Api.

(** ** The vocabulary of the statements *)

(** The entries stored for the term [t]; none when [t] is not a key. *)
Definition postings (e : SearchEngine) (t : string) : list (Z * list Z) :=
  default [] (inverted_index e !! t).

(** The document frequency of [t], as [word_doc_frequency.get(t, 0)]. *)
Definition df (e : SearchEngine) (t : string) : Z :=
  default 0 (word_doc_frequency e !! t).

(** What one turn of the loop of [add_document] leaves under a word: the
    entries with [position] appended for [doc_id], or a new entry. *)
Definition update_entries (entries : list (Z * list Z)) (doc_id position : Z) :=
  match append_position entries doc_id position with
  | Some entries' => entries'
  | None => entries ++ [(doc_id, [position])]
  end.

(** The positions at which [t] stands in a list of enumerated words. *)
Definition positions_in (t : string) (pws : list (Z * string)) : list Z :=
  (filter (λ pw, pw.2 = t) pws).*1.

(** The state of the loop of [add_document] for the document [d] with
    tokens [words], started on the engine [e0]: [rest] is what is left of
    [enumerate(words)], [U] is [unique_words_in_doc]. *)
Record loop_inv (d : Z) (words : list string) (e0 : SearchEngine)
    (rest : list (Z * string)) (U : gset string) (e : SearchEngine) : Prop := {
  li_documents : documents e = documents e0;
  li_counts : doc_word_counts e = doc_word_counts e0;
  li_next : next_doc_id e = next_doc_id e0;
  li_df : ∀ t, df e t = df e0 t + (if decide (t ∈ U) then 1 else 0);
  li_postings : ∃ seen,
    seen ++ rest = enumerate words
    ∧ U = list_to_set seen.*2
    ∧ ∀ t, postings e t
           = postings e0 t
             ++ (if decide (t ∈ U) then [(d, positions_in t seen)] else [])
}.

(** The ingested (title, content) pairs with the ids they are given. *)
Definition numbered (docs : list (string * string)) : list (Z * (string * string)) :=
  imap (λ i tc, (Z.of_nat i + 1, tc)) docs.

(** The ids of the documents whose tokens contain [t], ascending. *)
Definition docs_containing (t : string) (docs : list (string * string)) : list Z :=
  (filter (λ x, t ∈ _tokenize x.2.2) (numbered docs)).*1.

(** The entries the index should hold for [t]: one for each document that
    contains [t], in the order of ingestion, with the positions of [t]
    among the tokens of that document. *)
Definition postings_of (t : string) (docs : list (string * string))
  : list (Z * list Z) :=
  (λ x, (x.1, positions_in t (enumerate (_tokenize x.2.2))))
    <$> filter (λ x, t ∈ _tokenize x.2.2) (numbered docs).

(** The record kept in [self.documents] for a numbered pair. *)
Definition stored (x : Z * (string * string)) : Z * Document.t :=
  (x.1, Document.mk x.1 x.2.1 x.2.2).

(** The pair that was given the id [d], if any. *)
Definition lookup_doc (docs : list (string * string)) (d : Z) : option (string * string) :=
  if decide (1 ≤ d) then docs !! Z.to_nat (d - 1) else None.

(** The engine [e] holds exactly what ingesting [docs] in order leaves. *)
Record repr (docs : list (string * string)) (e : SearchEngine) : Prop := {
  repr_next : next_doc_id e = len docs + 1;
  repr_documents : documents e = stored <$> numbered docs;
  repr_counts : ∀ d, doc_word_counts e !! d
                     = (λ tc, len (_tokenize tc.2)) <$> lookup_doc docs d;
  repr_index : ∀ t, postings e t = postings_of t docs;
  repr_df : ∀ t, df e t = len (docs_containing t docs)
}.

(** A method that leaves the engine as it found it, whatever it returns
    or raises. *)
Definition read_only {A} (m : M A) : Prop := ∀ e, (m e).2 = e.

(** The value [_calculate_tf] computes. *)
Definition tf_value (e : SearchEngine) (word : string) (doc_id : Z) : R :=
  let total_words := default 1 (doc_word_counts e !! doc_id) in
  if decide (0 < total_words)
  then (IZR (count_in (postings e word) doc_id) / IZR total_words)%R
  else 0%R.

(** The value [_calculate_idf] computes from the two counts. *)
Definition idf_value (total_docs docs_with_word : Z) : R :=
  if decide (total_docs = 0) then 0%R
  else if decide (docs_with_word = 0) then 0%R
  else ln (IZR total_docs / IZR docs_with_word).

(** The set [candidate_docs] that [search] collects. *)
Definition candidates_of (e : SearchEngine) (query_words : list string) : gset Z :=
  list_to_set (query_words ≫= λ word, (postings e word).*1).

(** The score [search] sums for one candidate. *)
Definition score_of (e : SearchEngine) (query_words : list string) (doc_id : Z) : R :=
  foldl (λ score word,
           (score + tf_value e word doc_id
                    * idf_value (len (documents e)) (df e word))%R)
        0%R query_words.

(** No element is followed, anywhere later, by a larger one. *)
Fixpoint descending (l : list R) : Prop :=
  match l with
  | [] => True
  | x :: l' => Forall (λ y, (y <= x)%R) l' ∧ descending l'
  end.

(** The result dictionary built for a scored id and its document. *)
Definition result_of (entry : Z * R) (doc : Document.t) : SearchResult.t :=
  SearchResult.mk entry.1 (Document.title doc) (Document.content doc)
    (make_snippet (Document.content doc)) (round entry.2 4).

(** [r] is the result built for [entry] from the document store of [e]. *)
Definition shown (e : SearchEngine) (entry : Z * R) (r : SearchResult.t) : Prop :=
  ∃ doc, OrderedDict.getitem (documents e) entry.1 = Some doc ∧ r = result_of entry doc.

(** The ranked candidates of a query, before truncation. *)
Definition ranked (e : SearchEngine) (query : string) : list (Z * R) :=
  sorted_by_score
    (map (λ d, (d, score_of e (_tokenize query) d))
         (elements (candidates_of e (_tokenize query)))).

Fixpoint str_forall (P : ascii → bool) (s : string) : bool :=
  match s with
  | EmptyString => true
  | String c s' => P c && str_forall P s'
  end.

(** ASCII letters and digits. *)
Definition is_alnum (c : ascii) : bool :=
  in_range 48 57 c || in_range 65 90 c || in_range 97 122 c.

(** A non-empty word of ASCII letters and digits. *)
Definition alnum_token (w : string) : Prop :=
  w ≠ EmptyString ∧ str_forall is_alnum w = true.

(** Whitespace only (the empty string included). *)
Definition blank (s : string) : Prop := str_forall isspace s = true.

(** [lead w1 sep2 w2 ... sepn wn trail] *)
Fixpoint spaced (rest : list (string * string)) (trail : string) : string :=
  match rest with
  | [] => trail
  | (sep, w) :: rest' => sep +:+ w +:+ spaced rest' trail
  end.

(** The text as [split] receives it in [_tokenize]. *)
Definition clean (text : string) : string := sub_non_alnum (lower text).

(** A non-empty run of whitespace followed by an alphanumeric token. *)
Definition separated (x : string * string) : Prop :=
  x.1 ≠ EmptyString ∧ blank x.1 ∧ alnum_token x.2.

(** Small corpora for the concrete instances. *)
Definition corpus_cats : list (string * string) :=
  [("A", "cat"); ("B", "cat dog")]%string.

Definition corpus_xx : list (string * string) := [("a", "x"); ("b", "x")]%string.
Definition corpus_xy : list (string * string) := [("a", "x"); ("b", "y")]%string.
Definition corpus_yy : list (string * string) := [("a", "y"); ("b", "y")]%string.

(** [" ".join(words)] *)
Definition join_space (words : list string) : string :=
  match words with
  | [] => EmptyString
  | w :: rest => w +:+ spaced ((λ w, (" "%string, w)) <$> rest) EmptyString
  end.

(** A key of the index always has at least one entry. *)
Definition keys_ok (e : SearchEngine) : Prop :=
  ∀ t, is_Some (inverted_index e !! t) → postings e t ≠ [].

(** The ids of the documents that contain at least one of the query words,
    ascending. *)
Definition matching (query_words : list string) (docs : list (string * string))
  : list Z :=
  (filter (λ x, Exists (λ w, w ∈ _tokenize x.2.2) query_words) (numbered docs)).*1.

(** The outcome with its returned value mapped. *)
Definition outcome_map {A B} (f : A → B) (o : outcome A) : outcome B :=
  match o with
  | Returns a => Returns (f a)
  | Raises x => Raises x
  end.

(** The number of positions that the entries of one term hold for the
    document [doc_id]. *)
Definition positions_held (entries : list (Z * list Z)) (doc_id : Z) : Z :=
  foldr Z.add 0 ((λ entry, len entry.2) <$> filter (λ entry, entry.1 = doc_id) entries).

(** The number of positions that the whole index holds for the document
    [doc_id]. *)
Definition indexed_positions (e : SearchEngine) (doc_id : Z) : Z :=
  foldr Z.add 0
    ((λ kv, positions_held kv.2 doc_id) <$> map_to_list (inverted_index e)).

(** ** Sanity checks *)

Example tokenize_sentence :
  _tokenize "The cat, sat on  the MAT!" = ["the"; "cat"; "sat"; "on"; "the"; "mat"]%string.
Proof. reflexivity. Qed.

Example tokenize_blank : _tokenize "  	 " = [].
Proof. reflexivity. Qed.

Example ingest_ids : (ingest corpus_cat_dog __init__).1 = Returns [1; 2].
Proof. vm_compute. reflexivity. Qed.

Example cat_candidates :
  (find_candidates ["cat"%string] (engine_after corpus_cat_dog)).1 = Returns {[1]}.
Proof. vm_compute. reflexivity. Qed.

Example the_postings :
  inverted_index (engine_after corpus_cat_dog) !! "the"%string
  = Some [(1, [0; 4]); (2, [0; 4])].
Proof. vm_compute. reflexivity. Qed.

Set Warnings "-clear-no-such-hyp".
Arguments _tokenize : simpl never.

(** ** The indexing loop of [add_document] *)

Ltac run :=
  unfold mbind, M_bind, mret, M_ret, gets, modify, raise; cbn.

Lemma index_word_run d U p w e :
  index_word d U (p, w) e =
    (Returns ({[w]} ∪ U),
     set_inverted_index (<[w := update_entries (postings e w) d p]> (inverted_index e))
       (if decide (w ∈ U) then e
        else set_word_doc_frequency (<[w := df e w + 1]> (word_doc_frequency e)) e)).
Proof.
  unfold index_word, word_doc_frequency_incr, inverted_index_getitem, inverted_index_store.
  unfold update_entries, postings, df.
  destruct (decide (w ∈ U)) as [Hin|Hin].
  - rewrite decide_False by auto.
    replace ({[w]} ∪ U) with U by set_solver.
    run. destruct (inverted_index e !! w) as [entries|] eqn:Hw; cbn.
    + destruct (append_position entries d p); cbn; [done|].
      rewrite Hw. done.
    + unfold set_inverted_index; cbn. rewrite lookup_insert_eq. cbn. by rewrite insert_insert_eq.
  - rewrite decide_True by done.
    run. destruct (inverted_index e !! w) as [entries|] eqn:Hw; cbn.
    + destruct (append_position entries d p); cbn; [done|].
      rewrite Hw. done.
    + unfold set_inverted_index; cbn. rewrite lookup_insert_eq. cbn. by rewrite insert_insert_eq.
Qed.

Lemma update_entries_found old d ps later p :
  d ∉ old.*1 →
  update_entries (old ++ (d, ps) :: later) d p = old ++ (d, ps ++ [p]) :: later.
Proof.
  unfold update_entries. intros Hd.
  assert (append_position (old ++ (d, ps) :: later) d p
          = Some (old ++ (d, ps ++ [p]) :: later)) as ->; [|done].
  induction old as [|[d' ps'] old IH]; cbn.
  - by rewrite decide_True.
  - rewrite decide_False by set_solver. rewrite IH by set_solver. done.
Qed.

Lemma update_entries_missing entries d p :
  d ∉ entries.*1 → update_entries entries d p = entries ++ [(d, [p])].
Proof.
  unfold update_entries. intros Hd.
  assert (append_position entries d p = None) as ->; [|done].
  induction entries as [|[d' ps'] entries IH]; cbn; [done|].
  rewrite decide_False by set_solver. rewrite IH by set_solver. done.
Qed.

Lemma positions_in_snoc t seen p w :
  positions_in t (seen ++ [(p, w)])
  = positions_in t seen ++ (if decide (w = t) then [p] else []).
Proof.
  unfold positions_in. rewrite filter_app, fmap_app. f_equal.
  rewrite filter_cons, filter_nil. cbn. by case_decide.
Qed.

Lemma positions_in_unseen t seen : t ∉ seen.*2 → positions_in t seen = [].
Proof.
  unfold positions_in. induction seen as [|[p w] seen IH]; [done|].
  intros Ht. rewrite filter_cons_False by (cbn; set_solver).
  apply IH. set_solver.
Qed.

Lemma positions_in_length t seen : len (positions_in t seen) ≤ len seen.
Proof.
  unfold positions_in, len. rewrite length_fmap. apply inj_le, length_filter.
Qed.

Lemma for_each_app {A B} (l1 l2 : list A) (body : B → A → M B) b e :
  for_each (l1 ++ l2) body b e
  = (b' ← for_each l1 body b; for_each l2 body b') e.
Proof.
  revert b e. induction l1 as [|a l1 IH]; intros b e; cbn; [done|].
  unfold mbind, M_bind in *. destruct (body b a e) as [[b'|x] e']; [|done].
  apply IH.
Qed.

(** A loop whose body always returns and keeps [I] returns and keeps [I]. *)
Lemma for_each_inv {A B} (I : list A → B → SearchEngine → Prop)
    (body : B → A → M B) :
  (∀ a l b e, I (a :: l) b e →
     ∃ b' e', body b a e = (Returns b', e') ∧ I l b' e') →
  ∀ l b e, I l b e →
     ∃ b' e', for_each l body b e = (Returns b', e') ∧ I [] b' e'.
Proof.
  intros Hstep l. induction l as [|a l IH]; intros b e HI; cbn.
  - by exists b, e.
  - destruct (Hstep _ _ _ _ HI) as (b' & e' & Hrun & HI').
    unfold mbind, M_bind. rewrite Hrun. by apply IH.
Qed.

Lemma enumerate_snd {A} (l : list A) : (enumerate l).*2 = l.
Proof.
  unfold enumerate. generalize Z.of_nat as g.
  induction l as [|a l IH]; intros g; cbn; [done|].
  f_equal. apply (IH (g ∘ S)).
Qed.

Lemma enumerate_len {A} (l : list A) : len (enumerate l) = len l.
Proof. unfold len, enumerate. by rewrite length_imap. Qed.

Section indexing_loop.
Variables (d : Z) (words : list string) (e0 : SearchEngine).
Hypothesis fresh : ∀ t, d ∉ (postings e0 t).*1.

Lemma loop_inv_init : loop_inv d words e0 (enumerate words) ∅ e0.
Proof.
  split; try done.
  - intros t. rewrite decide_False by set_solver. lia.
  - exists []. split; [done|]. split; [done|].
    intros t. rewrite decide_False by set_solver. by rewrite app_nil_r.
Qed.

Lemma loop_inv_step p w rest U e :
  loop_inv d words e0 ((p, w) :: rest) U e →
  ∃ U' e', index_word d U (p, w) e = (Returns U', e') ∧ loop_inv d words e0 rest U' e'.
Proof.
  intros [Hdocs Hcounts Hnext Hdf (seen & Hseen & HU & Hpost)].
  eexists _, _. split; [apply index_word_run|].
  set (e1 := if decide (w ∈ U) then e else _).
  assert (Hpost1 : ∀ t, postings (set_inverted_index
            (<[w := update_entries (postings e w) d p]> (inverted_index e)) e1) t
          = if decide (t = w) then update_entries (postings e w) d p else postings e t).
  { intros t. unfold postings at 1. cbn.
    destruct (decide (t = w)) as [->|Hne].
    - by rewrite lookup_insert_eq.
    - by rewrite lookup_insert_ne. }
  assert (Hdf1 : ∀ t, df (set_inverted_index
            (<[w := update_entries (postings e w) d p]> (inverted_index e)) e1) t
          = df e t + (if decide (t = w ∧ w ∉ U) then 1 else 0)).
  { intros t. unfold df at 1. cbn. unfold e1.
    destruct (decide (w ∈ U)) as [Hin|Hin].
    - rewrite decide_False by tauto. fold (df e t). lia.
    - cbn. destruct (decide (t = w)) as [->|Hne].
      + rewrite lookup_insert_eq, decide_True by done. done.
      + rewrite lookup_insert_ne by done. rewrite decide_False by tauto.
        fold (df e t). lia. }
  split.
  - cbn. unfold e1. by destruct (decide (w ∈ U)).
  - cbn. unfold e1. by destruct (decide (w ∈ U)).
  - cbn. unfold e1. by destruct (decide (w ∈ U)).
  - intros t. rewrite Hdf1, Hdf. clear -t.
    repeat case_decide; try lia; exfalso; set_solver.
  - exists (seen ++ [(p, w)]). split; [by rewrite <- app_assoc|].
    split; [rewrite HU, fmap_app, list_to_set_app_L; cbn; set_solver|].
    intros t. rewrite Hpost1, positions_in_snoc.
    destruct (decide (t = w)) as [->|Hne].
    + rewrite (decide_True (P := w ∈ {[w]} ∪ U)) by set_solver.
      rewrite decide_True by done. rewrite Hpost.
      destruct (decide (w ∈ U)) as [Hin|Hin].
      * by rewrite update_entries_found.
      * rewrite app_nil_r, update_entries_missing by done.
        rewrite positions_in_unseen; [done|].
        rewrite HU in Hin. by rewrite elem_of_list_to_set in Hin.
    + rewrite (decide_False (P := w = t)) by done. rewrite app_nil_r, Hpost.
      destruct (decide (t ∈ U)).
      * by rewrite decide_True by set_solver.
      * by rewrite decide_False by set_solver.
Qed.

Lemma index_words_run :
  ∃ U e, for_each (enumerate words) (index_word d) ∅ e0 = (Returns U, e)
         ∧ loop_inv d words e0 [] U e.
Proof.
  apply (for_each_inv (loop_inv d words e0)).
  - intros [p w] rest U e. apply loop_inv_step.
  - apply loop_inv_init.
Qed.

End indexing_loop.

(** The loop of [add_document] returns and touches neither the document
    store, nor the lengths, nor the id counter, on every engine. *)
Lemma index_words_frame d l U e :
  ∃ U' e', for_each l (index_word d) U e = (Returns U', e')
    ∧ documents e' = documents e
    ∧ doc_word_counts e' = doc_word_counts e
    ∧ next_doc_id e' = next_doc_id e.
Proof.
  apply (for_each_inv (λ _ _ e', documents e' = documents e
    ∧ doc_word_counts e' = doc_word_counts e ∧ next_doc_id e' = next_doc_id e)).
  - intros [p w] rest U1 e1 (H1 & H2 & H3).
    eexists _, _. split; [apply index_word_run|].
    cbn. by destruct (decide (w ∈ U1)).
  - done.
Qed.

Lemma add_document_returns title content e :
  ∃ e', add_document title content e = (Returns (next_doc_id e), e')
    ∧ next_doc_id e' = next_doc_id e + 1
    ∧ documents e'
      = OrderedDict.setitem (documents e) (next_doc_id e)
          (Document.mk (next_doc_id e) title content)
    ∧ doc_word_counts e'
      = <[next_doc_id e := len (_tokenize content)]> (doc_word_counts e).
Proof.
  unfold add_document. run.
  match goal with |- context [for_each ?l ?f ?U ?e1] =>
    destruct (index_words_frame (next_doc_id e) l U e1) as (U' & e' & -> & H1 & H2 & H3)
  end.
  exists e'. by rewrite H1, H2, H3.
Qed.

Lemma add_document_run title content e :
  (∀ t, next_doc_id e ∉ (postings e t).*1) →
  ∃ e', add_document title content e = (Returns (next_doc_id e), e')
    ∧ (∀ t, postings e' t
            = postings e t
              ++ (if decide (t ∈ _tokenize content)
                  then [(next_doc_id e,
                         positions_in t (enumerate (_tokenize content)))]
                  else []))
    ∧ (∀ t, df e' t = df e t + (if decide (t ∈ _tokenize content) then 1 else 0)).
Proof.
  intros Hfresh. unfold add_document. run.
  match goal with |- context [for_each _ _ _ ?e1] => set (e0 := e1) end.
  destruct (index_words_run (next_doc_id e) (_tokenize content) e0)
    as (U & e' & -> & [_ _ _ Hdf (seen & Hseen & HU & Hpost)]); [apply Hfresh|].
  exists e'. split; [done|].
  rewrite app_nil_r in Hseen. subst seen. rewrite enumerate_snd in HU.
  assert (HU' : ∀ t, t ∈ U ↔ t ∈ _tokenize content).
  { intros t. rewrite HU. apply elem_of_list_to_set. }
  split.
  - intros t. rewrite Hpost. change (postings e0 t) with (postings e t).
    f_equal. clear -HU'. specialize (HU' t). repeat case_decide; tauto.
  - intros t. rewrite Hdf. change (df e0 t) with (df e t).
    clear -HU'. specialize (HU' t). repeat case_decide; tauto || lia.
Qed.

(** ** The engine against the history of ingested documents *)

Lemma numbered_snoc docs tc :
  numbered (docs ++ [tc]) = numbered docs ++ [(len docs + 1, tc)].
Proof.
  unfold numbered. rewrite imap_app. cbn. by rewrite Nat.add_0_r.
Qed.

Lemma numbered_elem docs d tc :
  (d, tc) ∈ numbered docs ↔ lookup_doc docs d = Some tc.
Proof.
  unfold numbered, lookup_doc. rewrite elem_of_lookup_imap. split.
  - intros (i & tc' & Heq & Hi). injection Heq as -> ->.
    rewrite decide_True by lia. by replace (Z.to_nat (Z.of_nat i + 1 - 1)) with i by lia.
  - case_decide; [|done]. intros Hd. exists (Z.to_nat (d - 1)), tc.
    split; [f_equal; lia | done].
Qed.

Lemma lookup_doc_range docs d tc :
  lookup_doc docs d = Some tc → 1 ≤ d ≤ len docs.
Proof.
  unfold lookup_doc, len. case_decide; [|done].
  intros Hd%lookup_lt_Some. lia.
Qed.

Lemma lookup_doc_snoc docs tc d :
  lookup_doc (docs ++ [tc]) d
  = if decide (d = len docs + 1) then Some tc else lookup_doc docs d.
Proof.
  unfold lookup_doc, len. destruct (decide (d = Z.of_nat (length docs) + 1)) as [->|Hne].
  - rewrite decide_True by lia.
    replace (Z.to_nat (Z.of_nat (length docs) + 1 - 1)) with (length docs) by lia.
    by rewrite lookup_app_r, Nat.sub_diag by lia.
  - case_decide; [|done].
    destruct (decide (Z.to_nat (d - 1) < length docs)%nat).
    + by rewrite lookup_app_l.
    + rewrite !lookup_ge_None_2; [done|lia|]. rewrite length_app. cbn. lia.
Qed.

Lemma postings_of_ids t docs : (postings_of t docs).*1 = docs_containing t docs.
Proof.
  unfold postings_of, docs_containing. by rewrite <- list_fmap_compose.
Qed.

Lemma postings_of_snoc t docs tc :
  postings_of t (docs ++ [tc])
  = postings_of t docs
    ++ (if decide (t ∈ _tokenize tc.2)
        then [(len docs + 1, positions_in t (enumerate (_tokenize tc.2)))]
        else []).
Proof.
  unfold postings_of. rewrite numbered_snoc, filter_app, fmap_app.
  f_equal. rewrite filter_cons, filter_nil. cbn. by case_decide.
Qed.

Lemma docs_containing_snoc t docs tc :
  docs_containing t (docs ++ [tc])
  = docs_containing t docs
    ++ (if decide (t ∈ _tokenize tc.2) then [len docs + 1] else []).
Proof.
  unfold docs_containing. rewrite numbered_snoc, filter_app, fmap_app.
  f_equal. rewrite filter_cons, filter_nil. cbn. by case_decide.
Qed.

Lemma docs_containing_elem t docs d :
  d ∈ docs_containing t docs
  ↔ ∃ tc, lookup_doc docs d = Some tc ∧ t ∈ _tokenize tc.2.
Proof.
  unfold docs_containing. rewrite list_elem_of_fmap. split.
  - intros ([d' tc] & -> & [Ht Hin]%list_elem_of_filter). cbn in *.
    exists tc. by rewrite <- numbered_elem.
  - intros (tc & Hd%numbered_elem & Ht). exists (d, tc).
    split; [done|]. by apply list_elem_of_filter.
Qed.

Lemma docs_containing_length t docs : len (docs_containing t docs) ≤ len docs.
Proof.
  unfold docs_containing, len, numbered. rewrite length_fmap.
  etrans; [apply inj_le, length_filter|]. by rewrite length_imap.
Qed.

Lemma setitem_fresh {V} (d : list (Z * V)) k v :
  k ∉ d.*1 → OrderedDict.setitem d k v = d ++ [(k, v)].
Proof.
  induction d as [|[k' v'] d IH]; cbn; [done|].
  intros Hk. rewrite decide_False by set_solver. f_equal. apply IH. set_solver.
Qed.

Lemma repr_init : repr [] __init__.
Proof.
  split; try done. intros d. unfold lookup_doc. by case_decide.
Qed.

Lemma repr_postings docs e (H : repr docs e) t :
  (postings e t).*1 = docs_containing t docs.
Proof. by rewrite (repr_index _ _ H), postings_of_ids. Qed.

Lemma repr_positions docs e (H : repr docs e) t d ps :
  (d, ps) ∈ postings e t →
  ∃ n, doc_word_counts e !! d = Some n ∧ len ps ≤ n.
Proof.
  rewrite (repr_index _ _ H). unfold postings_of.
  intros ([d' tc] & [= -> ->] & [_ Hin]%list_elem_of_filter)%list_elem_of_fmap.
  cbn. apply numbered_elem in Hin. rewrite (repr_counts _ _ H), Hin. cbn.
  eexists. split; [done|].
  etrans; [apply positions_in_length|]. by rewrite enumerate_len.
Qed.

Lemma repr_fresh docs e t : repr docs e → next_doc_id e ∉ (postings e t).*1.
Proof.
  intros H. rewrite (repr_postings _ _ H), (repr_next _ _ H).
  intros (tc & Hd%lookup_doc_range & _)%docs_containing_elem. lia.
Qed.

Lemma repr_add_document docs e title content :
  repr docs e →
  ∃ e', add_document title content e = (Returns (len docs + 1), e')
        ∧ repr (docs ++ [(title, content)]) e'.
Proof.
  intros H.
  destruct (add_document_returns title content e) as (e' & Hrun & Hn & Hd & Hc).
  destruct (add_document_run title content e) as (e'' & Hrun' & Hpost & Hdf).
  { intros t. by apply (repr_fresh docs). }
  rewrite Hrun in Hrun'. injection Hrun' as <-.
  pose proof (repr_next _ _ H) as Hnext. rewrite Hnext in *.
  exists e'. split; [done|]. split.
  - rewrite Hn. unfold len. rewrite length_app. cbn. lia.
  - rewrite Hd, numbered_snoc, fmap_app, (repr_documents _ _ H). cbn.
    apply setitem_fresh. rewrite <- list_fmap_compose.
    intros ([d tc] & Heq & Hin%numbered_elem%lookup_doc_range)%list_elem_of_fmap.
    cbn in Heq. lia.
  - intros d. rewrite Hc, lookup_doc_snoc.
    destruct (decide (d = len docs + 1)) as [->|Hne].
    + by rewrite lookup_insert_eq.
    + rewrite lookup_insert_ne by done. apply (repr_counts _ _ H).
  - intros t. by rewrite Hpost, postings_of_snoc, (repr_index _ _ H).
  - intros t. rewrite Hdf, docs_containing_snoc, (repr_df _ _ H).
    unfold len. cbn [snd]. case_decide; [rewrite length_app; simpl length | rewrite app_nil_r]; lia.
Qed.

Lemma ingest_snoc docs tc e :
  ingest (docs ++ [tc]) e
  = (ids ← ingest docs; doc_id ← add_document tc.1 tc.2; mret (ids ++ [doc_id])) e.
Proof.
  unfold ingest. rewrite for_each_app. unfold mbind, M_bind.
  destruct (for_each docs _ [] e) as [[ids|x] e1]; [|done]. cbn.
  unfold mbind, M_bind. by destruct (add_document tc.1 tc.2 e1) as [[d|x] e2].
Qed.

Lemma ingest_run docs :
  ∃ e, ingest docs __init__ = (Returns (seqZ 1 (len docs)), e) ∧ repr docs e.
Proof.
  induction docs as [|[title content] docs IH] using rev_ind.
  - exists __init__. split; [done | apply repr_init].
  - destruct IH as (e & Hrun & H).
    destruct (repr_add_document docs e title content H) as (e' & Hadd & H').
    exists e'. split; [|done].
    rewrite ingest_snoc. unfold mbind, M_bind. rewrite Hrun. cbn. rewrite Hadd.
    unfold mret, M_ret. do 2 f_equal.
    unfold len. rewrite length_app. cbn.
    replace (Z.of_nat (length docs + 1)) with (Z.of_nat (length docs) + 1) by lia.
    rewrite seqZ_app by lia. f_equal. change (seqZ ?a 1) with [a]. f_equal. lia.
Qed.

Lemma engine_after_repr docs : repr docs (engine_after docs).
Proof.
  unfold engine_after. destruct (ingest_run docs) as (e & -> & H). done.
Qed.

(** ** Methods that only read *)

Lemma read_only_ret {A} (a : A) : read_only (mret a).
Proof. done. Qed.

Lemma read_only_raise {A} x : read_only (raise (A := A) x).
Proof. done. Qed.

Lemma read_only_gets {A} (f : SearchEngine → A) : read_only (gets f).
Proof. done. Qed.

Lemma read_only_bind {A B} (m : M A) (k : A → M B) :
  read_only m → (∀ a, read_only (k a)) → read_only (m ≫= k).
Proof.
  intros Hm Hk e. unfold mbind, M_bind. specialize (Hm e).
  destruct (m e) as [[a|x] e']; cbn in *; subst; [apply Hk | done].
Qed.

Lemma read_only_for_each {A B} (l : list A) (body : B → A → M B) b :
  (∀ b a, read_only (body b a)) → read_only (for_each l body b).
Proof.
  intros Hbody. revert b. induction l as [|a l IH]; intros b; cbn.
  - apply read_only_ret.
  - apply read_only_bind; [apply Hbody | apply IH].
Qed.

Lemma read_only_truediv a b : read_only (truediv a b).
Proof. unfold truediv. case_decide; [apply read_only_raise | apply read_only_ret]. Qed.

Lemma read_only_math_log x : read_only (math_log x).
Proof. unfold math_log. destruct (Rlt_dec 0 x); [apply read_only_ret | apply read_only_raise]. Qed.

Lemma read_only_documents_getitem d : read_only (documents_getitem d).
Proof.
  intros e. unfold documents_getitem. run.
  by destruct (OrderedDict.getitem (documents e) d).
Qed.

(** Under the guard [word in self.inverted_index] the subscript inserts
    nothing. *)
Lemma inverted_index_getitem_guarded word e :
  word ∈ dom (inverted_index e) →
  inverted_index_getitem word e = (Returns (postings e word), e).
Proof.
  intros [entries Hw]%elem_of_dom. unfold inverted_index_getitem, postings. run.
  by rewrite Hw.
Qed.

Lemma postings_unguarded word e :
  word ∉ dom (inverted_index e) → postings e word = [].
Proof. intros Hw%not_elem_of_dom. unfold postings. by rewrite Hw. Qed.

Lemma _calculate_tf_run word doc_id e :
  _calculate_tf word doc_id e = (Returns (tf_value e word doc_id), e).
Proof.
  unfold _calculate_tf, tf_value. run.
  destruct (decide (word ∈ dom (inverted_index e))) as [Hw|Hw].
  - unfold mbind, M_bind. rewrite inverted_index_getitem_guarded by done. cbn.
    unfold truediv. case_decide; [|done].
    rewrite decide_False by lia. done.
  - rewrite postings_unguarded by done. cbn.
    unfold truediv. case_decide; [|done].
    rewrite decide_False by lia. done.
Qed.

Lemma _calculate_idf_run word e :
  0 ≤ df e word →
  _calculate_idf word e = (Returns (idf_value (len (documents e)) (df e word)), e).
Proof.
  intros Hdf. unfold _calculate_idf, idf_value. run.
  case_decide; [done|]. cbn. change (default 0 _) with (df e word).
  case_decide; [done|].
  unfold truediv. rewrite decide_False by done. cbn.
  unfold math_log. destruct (Rlt_dec _ _) as [|Hneg]; [done|].
  exfalso. apply Hneg. apply Rdiv_lt_0_compat; apply IZR_lt; unfold len in *; lia.
Qed.

Lemma read_only_calculate_idf word : read_only (_calculate_idf word).
Proof.
  unfold _calculate_idf. apply read_only_bind; [apply read_only_gets|]. intros docs.
  case_decide; [apply read_only_ret|].
  apply read_only_bind; [apply read_only_gets|]. intros freq.
  case_decide; [apply read_only_ret|].
  apply read_only_bind; [apply read_only_truediv | apply read_only_math_log].
Qed.

Lemma read_only_calculate_tf word doc_id : read_only (_calculate_tf word doc_id).
Proof. intros e. by rewrite _calculate_tf_run. Qed.

Lemma read_only_calculate_tfidf word doc_id : read_only (_calculate_tfidf word doc_id).
Proof.
  unfold _calculate_tfidf.
  apply read_only_bind; [apply read_only_calculate_tf|]. intros tf.
  apply read_only_bind; [apply read_only_calculate_idf|]. intros idf.
  apply read_only_ret.
Qed.

Lemma _calculate_tfidf_run word doc_id e :
  0 ≤ df e word →
  _calculate_tfidf word doc_id e
  = (Returns (tf_value e word doc_id
              * idf_value (len (documents e)) (df e word))%R, e).
Proof.
  intros Hdf. unfold _calculate_tfidf, mbind, M_bind.
  by rewrite _calculate_tf_run, _calculate_idf_run.
Qed.

(** *** Candidates *)

Lemma add_entries (entries : list (Z * list Z)) (c : gset Z) :
  foldl (λ c (entry : Z * list Z), {[entry.1]} ∪ c) c entries
  = c ∪ list_to_set entries.*1.
Proof.
  revert c. induction entries as [|entry entries IH]; intros c; cbn.
  - by rewrite union_empty_r_L.
  - rewrite IH. set_solver.
Qed.

Lemma find_candidates_from query_words c e :
  for_each query_words (λ candidate_docs word,
    index ← gets inverted_index;
    if decide (word ∈ dom index) then
      entries ← inverted_index_getitem word;
      mret (foldl (λ c (entry : Z * list Z), {[entry.1]} ∪ c) candidate_docs entries)
    else mret candidate_docs) c e
  = (Returns (c ∪ candidates_of e query_words), e).
Proof.
  revert c. induction query_words as [|word ws IH]; intros c.
  - cbn. unfold candidates_of. cbn. by rewrite union_empty_r_L.
  - cbn [for_each]. unfold mbind at 1, M_bind at 1.
    assert (Hbody : (index ← gets inverted_index;
       if decide (word ∈ dom index) then
         entries ← inverted_index_getitem word;
         mret (foldl (λ c (entry : Z * list Z), {[entry.1]} ∪ c) c entries)
       else mret c) e = (Returns (c ∪ list_to_set (postings e word).*1), e)).
    { run. case_decide as Hw.
      - unfold mbind, M_bind. rewrite inverted_index_getitem_guarded by done.
        cbn. by rewrite add_entries.
      - rewrite postings_unguarded by done. cbn. by rewrite union_empty_r_L. }
    rewrite Hbody, IH. do 2 f_equal. unfold candidates_of. cbn.
    rewrite list_to_set_app_L. set_solver.
Qed.

Lemma find_candidates_run query_words e :
  find_candidates query_words e = (Returns (candidates_of e query_words), e).
Proof.
  unfold find_candidates. rewrite find_candidates_from. by rewrite union_empty_l_L.
Qed.

Lemma candidates_of_elem e query_words d :
  d ∈ candidates_of e query_words
  ↔ ∃ word, word ∈ query_words ∧ d ∈ (postings e word).*1.
Proof.
  unfold candidates_of. rewrite elem_of_list_to_set, list_elem_of_bind.
  naive_solver.
Qed.

(** *** Scores *)

Lemma score_loop_run e query_words doc_id score :
  (∀ word, word ∈ query_words → 0 ≤ df e word) →
  for_each query_words (λ score word,
      s ← _calculate_tfidf word doc_id; mret (score + s)%R) score e
  = (Returns (foldl (λ score word,
        (score + tf_value e word doc_id
                 * idf_value (len (documents e)) (df e word))%R)
      score query_words), e).
Proof.
  revert score. induction query_words as [|word ws IH]; intros score Hdf; [done|].
  cbn [for_each foldl]. unfold mbind, M_bind.
  rewrite _calculate_tfidf_run by (apply Hdf; set_solver).
  cbn. apply IH. intros w Hw. apply Hdf. set_solver.
Qed.

Lemma score_candidates_from e query_words ids doc_scores :
  (∀ word, word ∈ query_words → 0 ≤ df e word) →
  NoDup (doc_scores.*1 ++ ids) →
  for_each ids (λ doc_scores doc_id,
    score ← for_each query_words (λ score word,
               s ← _calculate_tfidf word doc_id; mret (score + s)%R) 0%R;
    mret (OrderedDict.setitem doc_scores doc_id score)) doc_scores e
  = (Returns (doc_scores ++ map (λ d, (d, score_of e query_words d)) ids), e).
Proof.
  intros Hdf. revert doc_scores.
  induction ids as [|d ids IH]; intros doc_scores Hnd.
  - cbn. by rewrite app_nil_r.
  - cbn [for_each map]. unfold mbind at 1, M_bind at 1.
    unfold mbind at 1, M_bind at 1. rewrite score_loop_run by done.
    cbn. fold (score_of e query_words d).
    rewrite setitem_fresh.
    2:{ apply NoDup_app in Hnd as (_ & Hnd & _). intros Hd.
        apply (Hnd d Hd). set_solver. }
    rewrite IH.
    + by rewrite <- app_assoc.
    + rewrite fmap_app. cbn. by rewrite <- app_assoc.
Qed.

Lemma score_candidates_run e query_words c :
  (∀ word, word ∈ query_words → 0 ≤ df e word) →
  score_candidates query_words c e
  = (Returns (map (λ d, (d, score_of e query_words d)) (elements c)), e).
Proof.
  intros Hdf. unfold score_candidates.
  rewrite score_candidates_from; [done..|]. cbn. apply NoDup_elements.
Qed.

Lemma read_only_find_candidates query_words : read_only (find_candidates query_words).
Proof. intros e. by rewrite find_candidates_run. Qed.

Lemma read_only_score_candidates query_words c :
  read_only (score_candidates query_words c).
Proof.
  unfold score_candidates. apply read_only_for_each. intros doc_scores doc_id.
  apply read_only_bind; [|intros; apply read_only_ret].
  apply read_only_for_each. intros score word.
  apply read_only_bind; [apply read_only_calculate_tfidf|intros; apply read_only_ret].
Qed.

(** *** Sorting, slicing, rounding *)

Lemma insert_by_score_perm x l : insert_by_score x l ≡ₚ x :: l.
Proof.
  induction l as [|y l IH]; cbn; [done|].
  destruct (Rlt_dec x.2 y.2); [|done].
  rewrite IH. apply Permutation_swap.
Qed.

Lemma sorted_by_score_perm items : sorted_by_score items ≡ₚ items.
Proof.
  induction items as [|x items IH]; cbn; [done|].
  by rewrite insert_by_score_perm, IH.
Qed.

Lemma insert_by_score_descending x l :
  descending l.*2 → descending (insert_by_score x l).*2.
Proof.
  induction l as [|y l IH]; cbn; [done|].
  intros [Hy Hl]. destruct (Rlt_dec x.2 y.2) as [Hlt|Hge]; cbn.
  - split; [|by apply IH].
    rewrite insert_by_score_perm. cbn. constructor; [lra | done].
  - repeat split; [|done..]. constructor; [lra|].
    eapply Forall_impl; [apply Hy|]. cbn. intros z Hz. lra.
Qed.

Lemma sorted_by_score_descending items : descending (sorted_by_score items).*2.
Proof.
  induction items as [|x items IH]; cbn; [done|].
  by apply insert_by_score_descending.
Qed.

Lemma descending_take n l : descending l → descending (take n l).
Proof.
  revert n. induction l as [|x l IH]; intros [|n]; cbn; try done.
  intros [Hx Hl]. split; [by apply Forall_take | by apply IH].
Qed.

Lemma descending_map (f : R → R) l :
  (∀ x y, (x <= y)%R → (f x <= f y)%R) → descending l → descending (f <$> l).
Proof.
  intros Hf. induction l as [|x l IH]; cbn; [done|].
  intros [Hx Hl]. split; [|by apply IH].
  apply Forall_fmap. eapply Forall_impl; [apply Hx|]. cbn. auto.
Qed.

Lemma descending_adjacent l i a b :
  descending l → l !! i = Some a → l !! S i = Some b → ¬ (a < b)%R.
Proof.
  revert i. induction l as [|x l IH]; intros [|i]; cbn; try done.
  - intros [Hx _] [= ->] Hb. apply list_elem_of_lookup_2 in Hb.
    rewrite Forall_forall in Hx. specialize (Hx b Hb). lra.
  - intros [_ Hl]. by apply IH.
Qed.

Lemma slice_to_take {A} (l : list A) k : ∃ n, slice_to l k = take n l.
Proof. unfold slice_to. case_decide; eauto. Qed.

Lemma slice_to_length {A} (l : list A) k :
  len (slice_to l k)
  = if decide (0 ≤ k) then Z.min k (len l) else Z.max 0 (len l + k).
Proof.
  unfold slice_to, len. case_decide; rewrite length_take; lia.
Qed.

Lemma round_half_even_bounds x :
  (IZR (round_half_even x) - 1 / 2 <= x <= IZR (round_half_even x) + 1 / 2)%R.
Proof.
  unfold round_half_even. pose proof (Zfloor_bound x) as [H1 H2].
  repeat destruct (Rlt_dec _ _); try destruct (Z.even _);
    rewrite ?plus_IZR; lra.
Qed.

Lemma round_half_even_mono x y :
  (x <= y)%R → round_half_even x ≤ round_half_even y.
Proof.
  intros Hxy. pose proof (Zfloor_le x y Hxy) as Hf.
  destruct (decide (Zfloor x = Zfloor y)) as [Heq|Hne].
  - unfold round_half_even. rewrite Heq.
    repeat destruct (Rlt_dec _ _); try destruct (Z.even _); try lia; lra.
  - assert (round_half_even x ≤ Zfloor x + 1).
    { unfold round_half_even.
      repeat destruct (Rlt_dec _ _); try destruct (Z.even _); lia. }
    assert (Zfloor y ≤ round_half_even y).
    { unfold round_half_even.
      repeat destruct (Rlt_dec _ _); try destruct (Z.even _); lia. }
    lia.
Qed.

Lemma round_half_even_nonneg x : (0 <= x)%R → 0 ≤ round_half_even x.
Proof.
  intros Hx. replace 0 with (round_half_even 0).
  - by apply round_half_even_mono.
  - unfold round_half_even. rewrite (ZfloorZ 0).
    destruct (Rlt_dec _ _) as [|Hn]; [done|]. exfalso. apply Hn. lra.
Qed.

Lemma pow10_pos ndigits : 0 ≤ ndigits → (0 < IZR (10 ^ ndigits))%R.
Proof. intros Hn. apply IZR_lt. by apply Z.pow_pos_nonneg. Qed.

Lemma round_mono ndigits x y :
  0 ≤ ndigits → (x <= y)%R → (round x ndigits <= round y ndigits)%R.
Proof.
  intros Hn Hxy. unfold round. pose proof (pow10_pos _ Hn) as Hp.
  apply Rmult_le_compat_r; [left; by apply Rinv_0_lt_compat|].
  apply IZR_le, round_half_even_mono. by apply Rmult_le_compat_r; [left|].
Qed.

Lemma round_nonneg ndigits x :
  0 ≤ ndigits → (0 <= x)%R → (0 <= round x ndigits)%R.
Proof.
  intros Hn Hx. unfold round. pose proof (pow10_pos _ Hn) as Hp.
  apply Rmult_le_pos; [|left; by apply Rinv_0_lt_compat].
  apply IZR_le, round_half_even_nonneg. apply Rmult_le_pos; [done | by left].
Qed.

(** *** The document store *)

Lemma getitem_app {V} (d1 d2 : list (Z * V)) k :
  OrderedDict.getitem (d1 ++ d2) k
  = match OrderedDict.getitem d1 k with
    | Some v => Some v
    | None => OrderedDict.getitem d2 k
    end.
Proof.
  induction d1 as [|[k' v'] d1 IH]; cbn; [done|]. by case_decide.
Qed.

Lemma lookup_doc_beyond docs d : len docs < d → lookup_doc docs d = None.
Proof.
  intros Hd. destruct (lookup_doc docs d) as [tc|] eqn:Hl; [|done].
  apply lookup_doc_range in Hl. lia.
Qed.

Lemma getitem_stored docs d :
  OrderedDict.getitem (stored <$> numbered docs) d
  = (λ tc, Document.mk d tc.1 tc.2) <$> lookup_doc docs d.
Proof.
  induction docs as [|tc docs IH] using rev_ind.
  - cbn. unfold lookup_doc. by case_decide.
  - rewrite numbered_snoc, fmap_app, getitem_app, IH, lookup_doc_snoc. cbn.
    destruct (decide (d = len docs + 1)) as [->|Hne].
    + rewrite lookup_doc_beyond by lia. cbn. by rewrite decide_True.
    + rewrite decide_False by done. by destruct (lookup_doc docs d).
Qed.

(** *** Results *)

Lemma build_results_from e top_docs results :
  (∀ entry, entry ∈ top_docs → is_Some (OrderedDict.getitem (documents e) entry.1)) →
  ∃ rs, for_each top_docs (λ results (entry : Z * R),
    let '(doc_id, score) := entry in
    doc ← documents_getitem doc_id;
    let snippet := make_snippet (Document.content doc) in
    mret (results ++ [SearchResult.mk doc_id (Document.title doc)
                        (Document.content doc) snippet (round score 4)])) results e
       = (Returns (results ++ rs), e)
    ∧ Forall2 (shown e) top_docs rs.
Proof.
  revert results. induction top_docs as [|[d s] top_docs IH]; intros results Hdocs.
  - exists []. cbn. by rewrite app_nil_r.
  - destruct (Hdocs (d, s)) as [doc Hdoc]; [set_solver|]. cbn in Hdoc.
    cbn [for_each]. unfold mbind at 1, M_bind at 1.
    unfold documents_getitem. run. rewrite Hdoc. cbn.
    edestruct IH as (rs & -> & Hrs).
    { intros entry Hin. apply Hdocs. set_solver. }
    eexists (_ :: rs). rewrite <- app_assoc. split; [done|].
    constructor; [|done]. by exists doc.
Qed.

Lemma build_results_run e top_docs :
  (∀ entry, entry ∈ top_docs → is_Some (OrderedDict.getitem (documents e) entry.1)) →
  ∃ rs, build_results top_docs e = (Returns rs, e) ∧ Forall2 (shown e) top_docs rs.
Proof. intros H. by apply (build_results_from e top_docs []). Qed.

Lemma read_only_build_results top_docs : read_only (build_results top_docs).
Proof.
  unfold build_results. apply read_only_for_each. intros results [d s].
  apply read_only_bind; [apply read_only_documents_getitem|].
  intros doc. apply read_only_ret.
Qed.

Lemma read_only_search query top_k : read_only (search query top_k).
Proof.
  unfold search. case_decide; [apply read_only_ret|].
  apply read_only_bind; [apply read_only_find_candidates|]. intros c.
  case_decide; [apply read_only_ret|].
  apply read_only_bind; [apply read_only_score_candidates|]. intros doc_scores.
  apply read_only_build_results.
Qed.

Lemma read_only_get_stats : read_only get_stats.
Proof.
  unfold get_stats. apply read_only_bind; [apply read_only_gets|]. intros counts.
  apply read_only_bind; [apply read_only_gets|]. intros index.
  apply read_only_bind; [apply read_only_gets|]. intros docs.
  apply read_only_bind; [|intros; apply read_only_ret].
  case_decide; [apply read_only_ret|].
  apply read_only_bind; [apply read_only_truediv | intros; apply read_only_ret].
Qed.

Lemma ranked_elem docs e query entry :
  repr docs e → entry ∈ ranked e query →
  ∃ word tc, word ∈ _tokenize query ∧ lookup_doc docs entry.1 = Some tc
             ∧ word ∈ _tokenize tc.2.
Proof.
  intros H. unfold ranked. rewrite sorted_by_score_perm.
  intros (d & -> & Hd%elem_of_elements)%list_elem_of_fmap. cbn.
  apply candidates_of_elem in Hd as (word & Hw & Hd).
  rewrite (repr_postings _ _ H) in Hd.
  apply docs_containing_elem in Hd as (tc & Htc & Ht). eauto.
Qed.

Lemma repr_df_nonneg docs e word : repr docs e → 0 ≤ df e word.
Proof. intros H. rewrite (repr_df _ _ H). unfold len. lia. Qed.

Lemma search_run docs e query top_k :
  repr docs e →
  ∃ rs, search query top_k e = (Returns rs, e)
        ∧ Forall2 (shown e) (slice_to (ranked e query) top_k) rs.
Proof.
  intros H. unfold search.
  assert (Hnil : ∀ l : list (Z * R), l = [] → ∃ rs : list SearchResult.t,
            (mret [] : M (list SearchResult.t)) e = (Returns rs, e) ∧ Forall2 (shown e) (slice_to l top_k) rs).
  { intros l ->. exists []. split; [done|].
    destruct (slice_to_take (@nil (Z * R)) top_k) as [n ->]. by rewrite take_nil. }
  case_decide as Hq.
  - apply Hnil. unfold ranked. rewrite Hq. done.
  - unfold mbind at 1, M_bind at 1. rewrite find_candidates_run.
    case_decide as Hc.
    + apply Hnil. unfold ranked. rewrite Hc. done.
    + unfold mbind, M_bind. rewrite score_candidates_run.
      2:{ intros word _. by apply (repr_df_nonneg docs). }
      apply build_results_run. intros entry Hin.
      destruct (slice_to_take (ranked e query) top_k) as [n Hn].
      unfold OrderedDict.items in Hin. fold (ranked e query) in Hin.
      rewrite Hn in Hin. apply elem_of_take in Hin as (i & Hin & _).
      apply list_elem_of_lookup_2 in Hin.
      destruct (ranked_elem docs e query entry H Hin) as (word & tc & _ & Htc & _).
      rewrite (repr_documents _ _ H), getitem_stored, Htc. by eexists.
Qed.

(** ** The tokenizer on whitespace-separated alphanumeric tokens *)

Lemma append_cons c (s t : string) : String c s +:+ t = String c (s +:+ t).
Proof. reflexivity. Qed.

Lemma append_empty_l (s : string) : EmptyString +:+ s = s.
Proof. reflexivity. Qed.

Lemma str_map_app f s t : str_map f (s +:+ t) = str_map f s +:+ str_map f t.
Proof.
  induction s as [|c s IH]; [done|]. cbn. rewrite !append_cons. cbn. by rewrite IH.
Qed.

Lemma clean_app s t : clean (s +:+ t) = clean s +:+ clean t.
Proof. unfold clean, lower, sub_non_alnum. by rewrite !str_map_app. Qed.

Lemma char_space c :
  isspace c = true →
  (if is_lower_alnum (char_lower c) || isspace (char_lower c)
   then char_lower c else " "%char) = c.
Proof. destruct c as [[] [] [] [] [] [] [] []]; vm_compute; congruence. Qed.

Lemma char_alnum c :
  is_alnum c = true →
  is_lower_alnum (char_lower c) = true ∧ isspace (char_lower c) = false.
Proof. destruct c as [[] [] [] [] [] [] [] []]; vm_compute; split; congruence. Qed.

Lemma clean_blank s : blank s → clean s = s.
Proof.
  unfold blank, clean, lower, sub_non_alnum.
  induction s as [|c s IH]; cbn; [done|].
  intros [Hc Hs]%andb_prop. by rewrite char_space, IH.
Qed.

Lemma clean_alnum w :
  str_forall is_alnum w = true →
  clean w = lower w ∧ str_forall (λ c, negb (isspace c)) (lower w) = true.
Proof.
  unfold clean, lower, sub_non_alnum.
  induction w as [|c w IH]; cbn; [done|].
  intros [Hc Hw]%andb_prop. destruct (char_alnum c Hc) as [H1 H2].
  destruct (IH Hw) as [IH1 IH2]. by rewrite H1, H2, IH1, IH2.
Qed.

Lemma append_assoc (s t u : string) : (s +:+ t) +:+ u = s +:+ t +:+ u.
Proof. induction s as [|c s IH]; [done|]. by rewrite !append_cons, IH. Qed.

Lemma append_empty_r (s : string) : s +:+ EmptyString = s.
Proof. induction s as [|c s IH]; [done|]. by rewrite append_cons, IH. Qed.

Lemma split_word cur w rest :
  str_forall (λ c, negb (isspace c)) w = true →
  split_from cur (w +:+ rest) = split_from (cur +:+ w) rest.
Proof.
  revert cur. induction w as [|c w IH]; intros cur; cbn.
  - by rewrite append_empty_l, append_empty_r.
  - intros [Hc Hw]%andb_prop. apply negb_true_iff in Hc.
    rewrite append_cons. cbn. rewrite Hc, IH by done.
    by rewrite append_assoc.
Qed.

Lemma split_blank cur s rest :
  blank s →
  split_from cur (s +:+ rest)
  = match s with
    | EmptyString => split_from cur rest
    | _ => flush cur ++ split_from EmptyString rest
    end.
Proof.
  unfold blank. destruct s as [|c s]; [done|]. rewrite append_cons. cbn.
  intros [Hc Hs]%andb_prop. rewrite Hc. f_equal. clear c Hc.
  induction s as [|c s IH]; [done|]. rewrite append_cons. cbn in *.
  apply andb_prop in Hs as [Hc Hs]. rewrite Hc. cbn. by apply IH.
Qed.

Lemma flush_nonempty cur : cur ≠ EmptyString → flush cur = [cur].
Proof. by destruct cur. Qed.

Lemma lower_nonempty w : w ≠ EmptyString → lower w ≠ EmptyString.
Proof. by destruct w. Qed.

Lemma split_spaced cur rest trail :
  cur ≠ EmptyString → Forall separated rest → blank trail →
  split_from cur (clean (spaced rest trail)) = cur :: map lower rest.*2.
Proof.
  intros Hcur Hrest Htrail. revert cur Hcur.
  induction Hrest as [|[sep w] rest (Hsep & Hblank & Hne & Hw) _ IH];
    intros cur Hcur; cbn [spaced fmap list_fmap map snd].
  - rewrite clean_blank by done.
    rewrite <- (append_empty_r trail), split_blank by done.
    destruct trail; cbn; by rewrite flush_nonempty.
  - cbn in *. rewrite !clean_app, (clean_blank sep) by done.
    destruct (clean_alnum w Hw) as [-> Hlow].
    rewrite split_blank by done. destruct sep; [done|].
    rewrite flush_nonempty by done. cbn [app]. f_equal.
    rewrite split_word by done. cbn. apply IH. by apply lower_nonempty.
Qed.

Lemma filter_nonempty_lower ws :
  Forall (λ w, w ≠ EmptyString) ws →
  List.filter nonempty (map lower ws) = map lower ws.
Proof.
  induction 1 as [|w ws Hw _ IH]; cbn; [done|].
  rewrite IH. by destruct w.
Qed.

Lemma tokenize_separated lead w1 rest trail :
  blank lead → alnum_token w1 → Forall separated rest → blank trail →
  _tokenize (lead +:+ w1 +:+ spaced rest trail) = map lower (w1 :: rest.*2).
Proof.
  intros Hlead [Hne Hw] Hrest Htrail. unfold _tokenize.
  fold (clean (lead +:+ w1 +:+ spaced rest trail)). unfold split.
  rewrite !clean_app, (clean_blank lead) by done.
  destruct (clean_alnum w1 Hw) as [-> Hlow].
  assert (Hsplit : split_from EmptyString (lead +:+ lower w1 +:+ clean (spaced rest trail))
                   = lower w1 :: map lower rest.*2).
  { rewrite split_blank by done.
    assert (split_from EmptyString (lower w1 +:+ clean (spaced rest trail))
            = lower w1 :: map lower rest.*2) as ->.
    { rewrite split_word by done. cbn. apply split_spaced; [|done..].
      by apply lower_nonempty. }
    by destruct lead. }
  rewrite Hsplit. apply (filter_nonempty_lower (w1 :: rest.*2)).
  constructor; [done|]. apply Forall_fmap.
  eapply Forall_impl; [apply Hrest|]. by intros [sep w] (_ & _ & ? & _).
Qed.

Lemma tokenize_blank_text s : blank s → _tokenize s = [].
Proof.
  intros Hs. unfold _tokenize. fold (clean s). rewrite clean_blank by done.
  unfold split. rewrite <- (append_empty_r s), split_blank by done.
  by destruct s.
Qed.

(** ** Bounds on the scorer *)

Lemma count_in_cases entries d :
  count_in entries d = 0
  ∨ ∃ ps, (d, ps) ∈ entries ∧ count_in entries d = len ps.
Proof.
  induction entries as [|[d' ps] entries IH]; cbn; [by left|].
  case_decide as Hd.
  - subst. right. exists ps. split; [set_solver | done].
  - destruct IH as [?|(ps' & ? & ?)]; [by left|].
    right. exists ps'. split; [set_solver | done].
Qed.

Lemma tf_value_bounds docs e t d :
  repr docs e → (0 <= tf_value e t d <= 1)%R.
Proof.
  intros H. unfold tf_value. case_decide as Htotal; [|lra].
  destruct (count_in_cases (postings e t) d) as [->|(ps & Hin & ->)].
  - unfold Rdiv. rewrite Rmult_0_l. lra.
  - destruct (repr_positions _ _ H t d ps Hin) as (n & Hn & Hle).
    rewrite Hn in *. cbn in *.
    assert (0 < IZR n)%R by by apply IZR_lt.
    assert (0 <= IZR (len ps))%R by (apply IZR_le; unfold len; lia).
    assert (IZR (len ps) <= IZR n)%R by by apply IZR_le.
    split.
    + apply Rmult_le_pos; [done|]. left. by apply Rinv_0_lt_compat.
    + apply (Rmult_le_reg_r (IZR n)); [done|].
      unfold Rdiv. rewrite Rmult_assoc, Rinv_l by lra. lra.
Qed.

Lemma ln_le x y : (0 < x)%R → (x <= y)%R → (ln x <= ln y)%R.
Proof.
  intros Hx [Hlt| ->]; [|lra]. left. by apply ln_increasing.
Qed.

Lemma idf_value_nonneg total_docs docs_with_word :
  0 ≤ docs_with_word ≤ total_docs →
  (0 <= idf_value total_docs docs_with_word)%R.
Proof.
  intros Hd. unfold idf_value. repeat case_decide; try lra.
  rewrite <- ln_1. apply ln_le; [lra|].
  assert (0 < IZR docs_with_word)%R by (apply IZR_lt; lia).
  assert (IZR docs_with_word <= IZR total_docs)%R by (apply IZR_le; lia).
  apply (Rmult_le_reg_r (IZR docs_with_word)); [done|].
  unfold Rdiv. rewrite Rmult_assoc, Rinv_l by lra. lra.
Qed.

Lemma idf_value_antitone total_docs d1 d2 :
  0 ≤ total_docs → 1 ≤ d1 ≤ d2 →
  (idf_value total_docs d2 <= idf_value total_docs d1)%R.
Proof.
  intros HN Hd. unfold idf_value. case_decide; [lra|].
  rewrite !decide_False by lia.
  assert (0 < IZR total_docs)%R by (apply IZR_lt; lia).
  assert (0 < IZR d1)%R by (apply IZR_lt; lia).
  assert (0 < IZR d2)%R by (apply IZR_lt; lia).
  assert (IZR d1 <= IZR d2)%R by (apply IZR_le; lia).
  apply ln_le; [by apply Rdiv_lt_0_compat|].
  apply Rmult_le_compat_l; [lra|]. by apply Rinv_le_contravar.
Qed.

Lemma idf_value_zero total_docs docs_with_word :
  docs_with_word = 0 ∨ docs_with_word = total_docs →
  idf_value total_docs docs_with_word = 0%R.
Proof.
  intros Hd. unfold idf_value. repeat case_decide; try done.
  destruct Hd as [?| ->]; [done|].
  unfold Rdiv. rewrite Rinv_r; [apply ln_1|].
  apply not_0_IZR. done.
Qed.

Lemma repr_total docs e : repr docs e → len (documents e) = len docs.
Proof.
  intros H. rewrite (repr_documents _ _ H). unfold len, numbered.
  by rewrite length_fmap, length_imap.
Qed.

Lemma repr_df_bound docs e t : repr docs e → 0 ≤ df e t ≤ len (documents e).
Proof.
  intros H. rewrite (repr_total docs) by done. rewrite (repr_df _ _ H).
  split; [unfold len; lia | apply docs_containing_length].
Qed.

Lemma score_of_nonneg docs e query_words d :
  repr docs e → (0 <= score_of e query_words d)%R.
Proof.
  intros H. unfold score_of.
  assert (Hfold : ∀ s, (0 <= s)%R →
    (0 <= foldl (λ score word,
        (score + tf_value e word d
                 * idf_value (len (documents e)) (df e word))%R) s query_words)%R);
    [|apply Hfold; lra].
  induction query_words as [|w ws IH]; intros s Hs; cbn; [done|].
  apply IH. pose proof (tf_value_bounds docs e w d H).
  pose proof (idf_value_nonneg _ _ (repr_df_bound docs e w H)).
  assert (0 <= tf_value e w d * idf_value (len (documents e)) (df e w))%R
    by (apply Rmult_le_pos; lra).
  lra.
Qed.

Lemma shown_scores e top rs :
  Forall2 (shown e) top rs →
  SearchResult.score <$> rs = (λ s, round s 4) <$> top.*2.
Proof.
  induction 1 as [|entry r top rs (doc & _ & ->) _ IH]; cbn; [done|].
  by rewrite IH.
Qed.

Lemma ranked_length e query :
  length (ranked e query) = size (candidates_of e (_tokenize query)).
Proof.
  unfold ranked. by rewrite sorted_by_score_perm, length_map.
Qed.

Lemma docs_containing_NoDup t docs : NoDup (docs_containing t docs).
Proof.
  unfold docs_containing.
  eapply sublist_NoDup; [|apply fmap_sublist, sublist_filter].
  unfold numbered. clear t.
  induction docs as [|tc docs IH] using rev_ind; [constructor|].
  rewrite imap_app, fmap_app. cbn. apply NoDup_app. split; [done|].
  split; [|apply NoDup_singleton].
  intros d ([d' tc'] & -> & Hin)%list_elem_of_fmap.
  apply (numbered_elem docs), lookup_doc_range in Hin. cbn.
  rewrite list_elem_of_singleton. unfold len in Hin. lia.
Qed.

(** ** The properties of the specification *)

(** C1: a negative [top_k] does not give an empty result.  With two
    documents matching "cat", [search("cat", -1)] returns one result: the
    slice [sorted_docs[:-1]] drops the last candidate only. *)
Theorem search_negative_top_k :
  ∃ rs, search "cat" (-1) (engine_after corpus_cats)
        = (Returns rs, engine_after corpus_cats)
        ∧ len rs = 1.
Proof.
  destruct (search_run corpus_cats (engine_after corpus_cats) "cat" (-1))
    as (rs & Hrun & Hrs); [apply engine_after_repr|].
  exists rs. split; [done|].
  apply Forall2_length in Hrs. unfold len. rewrite <- Hrs.
  fold (len (slice_to (ranked (engine_after corpus_cats) "cat") (-1))).
  rewrite slice_to_length. unfold len. rewrite ranked_length.
  vm_compute. reflexivity.
Qed.

(** C2: on the engine after any ingestion, [get(id)] returns the record
    stored under an id that was assigned and signals NotFound for every
    other id, and nothing else fails: [add_document], [search],
    [get_stats] and [get_all_documents] return. *)
Theorem get_found_or_not_found docs doc_id :
  get doc_id (engine_after docs)
  = (match lookup_doc docs doc_id with
     | Some tc => Returns (Document.mk doc_id tc.1 tc.2)
     | None => Raises NotFound
     end, engine_after docs)
  ∧ (is_Some (lookup_doc docs doc_id) ↔ 1 ≤ doc_id ≤ len docs)
  ∧ (∀ title content, ∃ e',
       add_document title content (engine_after docs) = (Returns (len docs + 1), e'))
  ∧ (∀ query top_k, ∃ rs,
       search query top_k (engine_after docs) = (Returns rs, engine_after docs))
  ∧ (∃ stats, get_stats (engine_after docs) = (Returns stats, engine_after docs))
  ∧ (∃ all, get_all_documents (engine_after docs) = (Returns all, engine_after docs)).
Proof.
  pose proof (engine_after_repr docs) as H.
  split_and!.
  - unfold get. run. rewrite (repr_documents _ _ H), getitem_stored.
    by destruct (lookup_doc docs doc_id).
  - split.
    + intros [tc Htc]. by apply lookup_doc_range in Htc.
    + intros Hd. unfold lookup_doc. rewrite decide_True by lia.
      apply lookup_lt_is_Some. unfold len in Hd. lia.
  - intros title content.
    destruct (repr_add_document docs _ title content H) as (e' & Hrun & _).
    by exists e'.
  - intros query top_k.
    destruct (search_run docs _ query top_k H) as (rs & Hrun & _). by exists rs.
  - unfold get_stats. run. case_decide; [by eexists|].
    unfold truediv. rewrite decide_False; [by eexists|].
    unfold len. destruct (documents (engine_after docs)); [done|]. cbn. lia.
  - by eexists.
Qed.

(** C3, as stated, fails: with two documents, the IDF of "y" is 0 while no
    document contains it and [ln 2 > 0] once one document does, so the IDF
    rises as the document frequency goes from 0 to 1. *)
Lemma idf_rises_from_unseen :
  len (documents (engine_after corpus_xx)) = len (documents (engine_after corpus_xy))
  ∧ df (engine_after corpus_xx) "y" ≤ df (engine_after corpus_xy) "y"
  ∧ ∃ v1 v2,
      (_calculate_idf "y" (engine_after corpus_xx)).1 = Returns v1
      ∧ (_calculate_idf "y" (engine_after corpus_xy)).1 = Returns v2
      ∧ (v1 < v2)%R.
Proof.
  split; [by vm_compute|]. split; [by vm_compute|].
  eexists _, _. rewrite !_calculate_idf_run by by vm_compute.
  split; [done|]. split; [done|].
  replace (df (engine_after corpus_xx) "y") with 0 by by vm_compute.
  replace (df (engine_after corpus_xy) "y") with 1 by by vm_compute.
  replace (len (documents (engine_after corpus_xx))) with 2 by by vm_compute.
  replace (len (documents (engine_after corpus_xy))) with 2 by by vm_compute.
  unfold idf_value. repeat case_decide; try done.
  replace (2 / 1)%R with 2%R by lra. pose proof ln_lt_2. lra.
Qed.

(** C3, amended: among terms that occur in at least one document the IDF
    is non-increasing in the document frequency for a fixed number of
    documents, and it is 0 for a term in every document and for a term in
    no document (also when there is no document at all). *)
Theorem idf_antitone_on_seen_terms e1 e2 t
    (Htotal : len (documents e1) = len (documents e2))
    (Hdf : 1 ≤ df e1 t ≤ df e2 t) :
  (∃ v1 v2, _calculate_idf t e1 = (Returns v1, e1)
            ∧ _calculate_idf t e2 = (Returns v2, e2)
            ∧ (v2 <= v1)%R)
  ∧ (∀ e t', df e t' = 0 ∨ df e t' = len (documents e) →
             _calculate_idf t' e = (Returns 0%R, e)).
Proof.
  split.
  - eexists _, _. rewrite !_calculate_idf_run by lia.
    split; [done|]. split; [done|]. rewrite Htotal.
    apply idf_value_antitone; [unfold len; lia | done].
  - intros e t' Hd. rewrite _calculate_idf_run.
    + by rewrite idf_value_zero.
    + destruct Hd as [->| ->]; unfold len; lia.
Qed.

Lemma idf_antitone_on_seen_terms_witness :
  ∃ v1 v2, _calculate_idf "y" (engine_after corpus_xy)
           = (Returns v1, engine_after corpus_xy)
           ∧ _calculate_idf "y" (engine_after corpus_yy)
             = (Returns v2, engine_after corpus_yy)
           ∧ (v2 <= v1)%R.
Proof.
  apply (idf_antitone_on_seen_terms (engine_after corpus_xy)
           (engine_after corpus_yy) "y").
  - vm_compute. reflexivity.
  - vm_compute. split; discriminate.
Defined.

(** C4: after any sequence of [add_document] calls on a fresh engine, the
    document frequency of a term is the number of postings stored for it;
    the postings of the term are one per document that contains it, and
    one more [add_document] raises the frequency by one exactly when the
    new document contains the term. *)
Theorem df_counts_postings docs t :
  df (engine_after docs) t = len (postings (engine_after docs) t)
  ∧ (postings (engine_after docs) t).*1 = docs_containing t docs
  ∧ NoDup (postings (engine_after docs) t).*1
  ∧ ∀ title content,
      df (engine_after (docs ++ [(title, content)])) t
      = df (engine_after docs) t
        + (if decide (t ∈ _tokenize content) then 1 else 0).
Proof.
  pose proof (engine_after_repr docs) as H. split_and!.
  - rewrite (repr_df _ _ H), <- (repr_postings _ _ H). unfold len.
    by rewrite length_fmap.
  - apply (repr_postings _ _ H).
  - rewrite (repr_postings _ _ H). apply docs_containing_NoDup.
  - intros title content.
    rewrite (repr_df _ _ (engine_after_repr _)), (repr_df _ _ H).
    rewrite docs_containing_snoc. unfold len. cbn [snd].
    case_decide; [rewrite length_app; simpl length | rewrite app_nil_r]; lia.
Qed.

(** C5: on the engine after any ingestion, [_calculate_tf] returns a
    value in [0, 1] for every term and every document id, and no posting
    holds more positions than its document has tokens. *)
Theorem term_frequency_in_unit_interval docs t d :
  (∃ v, _calculate_tf t d (engine_after docs) = (Returns v, engine_after docs)
        ∧ (0 <= v <= 1)%R)
  ∧ ∀ ps, (d, ps) ∈ postings (engine_after docs) t →
          ∃ n, doc_word_counts (engine_after docs) !! d = Some n ∧ len ps ≤ n.
Proof.
  pose proof (engine_after_repr docs) as H. split.
  - eexists. split; [apply _calculate_tf_run|]. by apply (tf_value_bounds docs).
  - apply (repr_positions _ _ H).
Qed.

(** C6: [get_stats] and [search] leave every engine as it was, so a
    second call with the same arguments gives the result of the first. *)
Theorem reads_are_idempotent e query top_k :
  (get_stats e).2 = e
  ∧ (search query top_k e).2 = e
  ∧ get_stats (get_stats e).2 = get_stats e
  ∧ search query top_k (search query top_k e).2 = search query top_k e.
Proof.
  pose proof (read_only_get_stats e) as Hs.
  pose proof (read_only_search query top_k e) as Hq.
  by rewrite Hs, Hq.
Qed.

(** C7: the results of [search] are in descending order of score: no
    result is followed by one with a strictly larger score. *)
Theorem search_sorted_descending docs query top_k :
  ∃ rs, search query top_k (engine_after docs) = (Returns rs, engine_after docs)
        ∧ ∀ i r1 r2, rs !! i = Some r1 → rs !! S i = Some r2 →
            ¬ (SearchResult.score r1 < SearchResult.score r2)%R.
Proof.
  destruct (search_run docs _ query top_k (engine_after_repr docs))
    as (rs & Hrun & Hrs).
  exists rs. split; [done|]. intros i r1 r2 H1 H2.
  apply (descending_adjacent (SearchResult.score <$> rs) i).
  - rewrite (shown_scores _ _ _ Hrs).
    destruct (slice_to_take (ranked (engine_after docs) query) top_k) as [n ->].
    apply descending_map; [intros x y; by apply round_mono|].
    rewrite fmap_take. apply descending_take, sorted_by_score_descending.
  - by rewrite list_lookup_fmap, H1.
  - by rewrite list_lookup_fmap, H2.
Qed.

(** C8: [add_document] records as the length of the new document the
    number of tokens of its content, on every engine; a content of [n]
    alphanumeric tokens separated (and possibly surrounded) by whitespace
    has [n] tokens; a content of whitespace only is recorded with length 0,
    leaves the index and the frequencies as they were, and returns. *)
Theorem add_document_length e title lead w1 rest trail blanks
    (Hlead : blank lead) (Hw1 : alnum_token w1)
    (Hrest : Forall separated rest) (Htrail : blank trail)
    (Hblanks : blank blanks) :
  (∀ content, ∃ e',
     add_document title content e = (Returns (next_doc_id e), e')
     ∧ doc_word_counts e' !! next_doc_id e = Some (len (_tokenize content)))
  ∧ (∃ e', add_document title (lead +:+ w1 +:+ spaced rest trail) e
           = (Returns (next_doc_id e), e')
           ∧ doc_word_counts e' !! next_doc_id e = Some (1 + len rest))
  ∧ (∃ e', add_document title blanks e = (Returns (next_doc_id e), e')
           ∧ doc_word_counts e' !! next_doc_id e = Some 0
           ∧ inverted_index e' = inverted_index e
           ∧ word_doc_frequency e' = word_doc_frequency e).
Proof.
  assert (Hany : ∀ content, ∃ e',
     add_document title content e = (Returns (next_doc_id e), e')
     ∧ doc_word_counts e' !! next_doc_id e = Some (len (_tokenize content))).
  { intros content.
    destruct (add_document_returns title content e) as (e' & Hrun & _ & _ & Hc).
    exists e'. split; [done|]. by rewrite Hc, lookup_insert_eq. }
  split_and!; [done|..].
  - destruct (Hany (lead +:+ w1 +:+ spaced rest trail)) as (e' & Hrun & Hc).
    exists e'. split; [done|]. rewrite Hc, tokenize_separated by done.
    f_equal. unfold len. cbn. rewrite length_map, length_fmap. lia.
  - unfold add_document. run. rewrite (tokenize_blank_text blanks) by done.
    cbn. eexists. split; [done|]. cbn. by rewrite lookup_insert_eq.
Qed.

Lemma add_document_length_witness :
  ∃ e', add_document "T" (" " +:+ "Hello" +:+ spaced [("  ", "World42")] " ")%string
          (engine_after corpus_cat_dog)
        = (Returns (next_doc_id (engine_after corpus_cat_dog)), e')
        ∧ doc_word_counts e' !! next_doc_id (engine_after corpus_cat_dog)
          = Some (1 + len [("  ", "World42")]%string).
Proof.
  refine (proj1 (proj2 (add_document_length (engine_after corpus_cat_dog) "T"
            " " "Hello" [("  ", "World42")]%string " " "   " _ _ _ _ _))).
  - reflexivity.
  - split; [discriminate | reflexivity].
  - constructor; [|constructor].
    split; [discriminate|]. split; [reflexivity|].
    split; [discriminate | reflexivity].
  - reflexivity.
  - reflexivity.
Defined.

(** C9: document ids are handed out as 1, 2, 3, ... in the order of the
    calls, and [get_all_documents] lists the records in that ascending
    order, each under the id it was given; ingesting more documents keeps
    the earlier records where and as they were. *)
Theorem ids_sequential docs :
  ingest docs __init__ = (Returns (seqZ 1 (len docs)), engine_after docs)
  ∧ get_all_documents (engine_after docs)
    = (Returns (imap (λ i tc, Document.mk (Z.of_nat i + 1) tc.1 tc.2) docs),
       engine_after docs)
  ∧ Document.id <$> imap (λ i tc, Document.mk (Z.of_nat i + 1) tc.1 tc.2) docs
    = seqZ 1 (len docs)
  ∧ ∀ more, ∃ later,
      get_all_documents (engine_after (docs ++ more))
      = (Returns (imap (λ i tc, Document.mk (Z.of_nat i + 1) tc.1 tc.2) docs
                  ++ later), engine_after (docs ++ more)).
Proof.
  assert (Hall : ∀ docs, get_all_documents (engine_after docs)
    = (Returns (imap (λ i tc, Document.mk (Z.of_nat i + 1) tc.1 tc.2) docs),
       engine_after docs)).
  { intros ds. unfold get_all_documents. run.
    rewrite (repr_documents _ _ (engine_after_repr ds)).
    do 2 f_equal. unfold OrderedDict.values, numbered.
    rewrite <- !list_fmap_compose, fmap_imap. done. }
  split_and!.
  - unfold engine_after. by destruct (ingest_run docs) as (e & -> & _).
  - apply Hall.
  - unfold len. induction docs as [|tc docs IH] using rev_ind; [done|].
    rewrite imap_app, fmap_app, IH, length_app. cbn.
    replace (Z.of_nat (length docs + 1)) with (Z.of_nat (length docs) + 1) by lia.
    rewrite seqZ_app by lia. f_equal.
    rewrite Nat.add_0_r. change (seqZ ?a 1) with [a]. f_equal. lia.
  - intros more. rewrite Hall, imap_app. by eexists.
Qed.

(** C10: after any sequence of [add_document] calls on a fresh engine, the
    document frequency of a term is between 0 and the number of documents,
    [_calculate_idf] returns a value that is not negative, and [search]
    returns results whose scores are not negative. *)
Theorem df_bounded_scores_nonneg docs t :
  0 ≤ df (engine_after docs) t ≤ len (documents (engine_after docs))
  ∧ (∃ v, _calculate_idf t (engine_after docs) = (Returns v, engine_after docs)
          ∧ (0 <= v)%R)
  ∧ ∀ query top_k, ∃ rs,
      search query top_k (engine_after docs) = (Returns rs, engine_after docs)
      ∧ Forall (λ r, (0 <= SearchResult.score r)%R) rs.
Proof.
  pose proof (engine_after_repr docs) as H.
  pose proof (repr_df_bound docs _ t H) as Hdf. split_and!; try lia.
  - eexists. split; [apply _calculate_idf_run; lia|]. by apply idf_value_nonneg.
  - intros query top_k.
    destruct (search_run docs _ query top_k H) as (rs & Hrun & Hrs).
    exists rs. split; [done|].
    apply Forall_fmap with (f := SearchResult.score) (P := λ s, (0 <= s)%R).
    rewrite (shown_scores _ _ _ Hrs). apply Forall_fmap, Forall_fmap.
    apply Forall_forall. intros [d s] Hin. cbn.
    apply round_nonneg; [done|].
    destruct (slice_to_take (ranked (engine_after docs) query) top_k) as [n Hn].
    rewrite Hn in Hin. apply elem_of_take in Hin as (i & Hin%list_elem_of_lookup_2 & _).
    unfold ranked in Hin. rewrite sorted_by_score_perm in Hin.
    apply list_elem_of_fmap in Hin as (d' & [= -> ->] & _).
    by apply (score_of_nonneg docs).
Qed.

(** ** More on the tokenizer *)

Lemma str_forall_app P s t :
  str_forall P (s +:+ t) = str_forall P s && str_forall P t.
Proof.
  induction s as [|c s IH]; [done|]. rewrite append_cons. cbn.
  by rewrite IH, andb_assoc.
Qed.

Lemma clean_chars text :
  str_forall (λ c, is_lower_alnum c || isspace c) (clean text) = true.
Proof.
  unfold clean, lower, sub_non_alnum. induction text as [|c text IH]; [done|].
  cbn. rewrite IH, andb_true_r.
  destruct (is_lower_alnum (char_lower c) || isspace (char_lower c)) eqn:Hc; done.
Qed.

Lemma split_from_tokens cur text :
  str_forall is_lower_alnum cur = true →
  str_forall (λ c, is_lower_alnum c || isspace c) text = true →
  Forall (λ w, w ≠ EmptyString ∧ str_forall is_lower_alnum w = true)
         (split_from cur text).
Proof.
  assert (Hflush : ∀ cur, str_forall is_lower_alnum cur = true →
    Forall (λ w, w ≠ EmptyString ∧ str_forall is_lower_alnum w = true) (flush cur)).
  { intros [|c s] Hs; cbn [flush]; [constructor|]. by repeat constructor. }
  revert cur. induction text as [|c text IH]; intros cur Hcur; cbn.
  - intros _. by apply Hflush.
  - intros [Hc Htext]%andb_prop. destruct (isspace c) eqn:Hsp.
    + apply Forall_app. split; [by apply Hflush | by apply IH].
    + apply IH; [|done]. rewrite str_forall_app, Hcur. cbn.
      rewrite orb_false_r in Hc. by rewrite Hc.
Qed.

Lemma tokenize_tokens text :
  Forall (λ w, w ≠ EmptyString ∧ str_forall is_lower_alnum w = true)
         (_tokenize text).
Proof.
  unfold _tokenize. fold (clean text).
  apply Forall_forall. intros w Hw.
  apply list_elem_of_In, filter_In in Hw as [Hw _].
  apply list_elem_of_In in Hw. revert w Hw. apply Forall_forall.
  apply split_from_tokens; [done | apply clean_chars].
Qed.

(** X1: every token that [_tokenize] returns is a non-empty word over the
    characters [a-z0-9]. *)
Theorem tokens_are_lower_alnum text :
  Forall (λ w, w ≠ EmptyString ∧ str_forall is_lower_alnum w = true)
         (_tokenize text).
Proof. apply tokenize_tokens. Qed.

Lemma char_lower_idemp c : char_lower (char_lower c) = char_lower c.
Proof. destruct c as [[] [] [] [] [] [] [] []]; reflexivity. Qed.

(** X3: matching ignores case: a text and its lower-cased form have the
    same tokens. *)
Theorem tokenize_lower text : _tokenize (lower text) = _tokenize text.
Proof.
  unfold _tokenize. do 3 f_equal. unfold lower.
  induction text as [|c text IH]; [done|]. cbn. by rewrite char_lower_idemp, IH.
Qed.

Lemma char_lower_alnum c :
  is_lower_alnum c = true → is_alnum c = true ∧ char_lower c = c.
Proof. destruct c as [[] [] [] [] [] [] [] []]; vm_compute; split; congruence. Qed.

Lemma lower_alnum_word w :
  str_forall is_lower_alnum w = true →
  str_forall is_alnum w = true ∧ lower w = w.
Proof.
  unfold lower. induction w as [|c w IH]; [done|]. cbn.
  intros [Hc Hw]%andb_prop. destruct (char_lower_alnum c Hc) as [-> ->].
  destruct (IH Hw) as [-> ->]. done.
Qed.

Lemma tokenize_join_tokens ws :
  Forall (λ w, w ≠ EmptyString ∧ str_forall is_lower_alnum w = true) ws →
  _tokenize (join_space ws) = ws.
Proof.
  intros Hws. destruct Hws as [|w ws [Hne Hw] Hws]; [done|].
  cbn [join_space].
  rewrite <- (append_empty_l (w +:+ _)).
  rewrite tokenize_separated.
  - rewrite <- list_fmap_compose. cbn [map].
    f_equal; [by apply lower_alnum_word|].
    change (map lower) with (fmap (M := list) lower).
    rewrite <- list_fmap_compose.
    induction Hws as [|w' ws' [_ Hw'] _ IH]; [done|]. cbn.
    f_equal; [by apply lower_alnum_word | done].
  - done.
  - split; [done|]. by apply lower_alnum_word.
  - apply Forall_fmap. eapply Forall_impl; [apply Hws|].
    intros w' [Hne' Hw']. split; [done|]. split; [done|].
    split; [done|]. by apply lower_alnum_word.
  - done.
Qed.

(** X2: tokenizing is a normal form: the tokens of a text, joined by
    single spaces, tokenize to themselves. *)
Theorem tokenize_join_roundtrip text :
  _tokenize (join_space (_tokenize text)) = _tokenize text.
Proof. apply tokenize_join_tokens, tokenize_tokens. Qed.

(** ** The index, exactly *)

Lemma update_entries_nonempty entries d p : update_entries entries d p ≠ [].
Proof.
  unfold update_entries. destruct entries as [|[d' ps] entries]; cbn; [done|].
  case_decide; [done|]. by destruct (append_position entries d p).
Qed.

Lemma index_words_keys d l U e :
  keys_ok e → keys_ok (for_each l (index_word d) U e).2.
Proof.
  intros Hk.
  destruct (for_each_inv (λ _ _ e', keys_ok e') (index_word d)) with (l := l) (b := U) (e := e)
    as (U' & e' & -> & Hk'); [|done..].
  clear. intros [p w] rest U e Hk. eexists _, _. split; [apply index_word_run|].
  intros t. unfold postings. cbn.
  destruct (decide (t = w)) as [->|Hne].
  - rewrite lookup_insert_eq. intros _. cbn. apply update_entries_nonempty.
  - rewrite lookup_insert_ne by done. intros Ht.
    apply (Hk t). by destruct (decide (w ∈ U)).
Qed.

Lemma add_document_keys title content e :
  keys_ok e → keys_ok (add_document title content e).2.
Proof.
  intros Hk. unfold add_document. run.
  match goal with |- context [for_each ?l ?f ?U ?e1] =>
    pose proof (index_words_keys (next_doc_id e) l U e1 Hk) as Hk';
    destruct (for_each l f U e1) as [[U'|x] e']
  end; done.
Qed.

Lemma engine_after_snoc docs title content :
  engine_after (docs ++ [(title, content)])
  = (add_document title content (engine_after docs)).2.
Proof.
  unfold engine_after. rewrite ingest_snoc. unfold mbind, M_bind.
  destruct (ingest_run docs) as (e & -> & H). cbn.
  destruct (repr_add_document docs e title content H) as (e' & -> & _). done.
Qed.

Lemma engine_after_keys docs : keys_ok (engine_after docs).
Proof.
  induction docs as [|[title content] docs IH] using rev_ind.
  - intros t [x Hx]. done.
  - rewrite engine_after_snoc. by apply add_document_keys.
Qed.

Lemma docs_containing_nil t docs :
  docs_containing t docs = [] ↔ ∀ tc, tc ∈ docs → t ∉ _tokenize tc.2.
Proof.
  split.
  - intros Hnil tc Htc Ht. apply list_elem_of_lookup in Htc as [i Hi].
    assert (Z.of_nat i + 1 ∈ docs_containing t docs) as Hin; [|by rewrite Hnil in Hin; apply elem_of_nil in Hin].
    apply docs_containing_elem. exists tc. split; [|done].
    unfold lookup_doc. rewrite decide_True by lia.
    by replace (Z.to_nat (Z.of_nat i + 1 - 1)) with i by lia.
  - intros Hnone. destruct (docs_containing t docs) as [|d ds] eqn:Hd; [done|].
    assert (d ∈ docs_containing t docs) as Hin by (rewrite Hd; set_solver).
    apply docs_containing_elem in Hin as (tc & Htc & Ht).
    exfalso. apply (Hnone tc); [|done].
    unfold lookup_doc in Htc. case_decide; [|done].
    by apply list_elem_of_lookup_2 in Htc.
Qed.

Lemma enumerate_snoc {A} (l : list A) a :
  enumerate (l ++ [a]) = enumerate l ++ [(len l, a)].
Proof. unfold enumerate. rewrite imap_app. cbn. by rewrite Nat.add_0_r. Qed.

Lemma positions_in_elem t ws p :
  p ∈ positions_in t (enumerate ws) ↔ 0 ≤ p ∧ ws !! Z.to_nat p = Some t.
Proof.
  unfold positions_in, enumerate. rewrite list_elem_of_fmap. split.
  - intros ([p' w] & -> & [Hw Hin]%list_elem_of_filter). cbn in *. subst.
    apply elem_of_lookup_imap in Hin as (i & w & [= -> ->] & Hi).
    split; [lia|]. by rewrite Nat2Z.id.
  - intros [Hp Hw]. exists (p, t). split; [done|].
    apply list_elem_of_filter. split; [done|].
    apply elem_of_lookup_imap. exists (Z.to_nat p), t. split; [f_equal; lia | done].
Qed.

Lemma positions_in_sorted t ws : StronglySorted Z.lt (positions_in t (enumerate ws)).
Proof.
  induction ws as [|w ws IH] using rev_ind; [constructor|].
  rewrite enumerate_snoc, positions_in_snoc.
  apply StronglySorted_app_2; [|done|].
  - intros p1 p2 [_ Hp1]%positions_in_elem Hp2.
    apply lookup_lt_Some in Hp1.
    case_decide; [|by apply elem_of_nil in Hp2].
    apply list_elem_of_singleton in Hp2 as ->. unfold len. lia.
  - case_decide; repeat constructor.
Qed.

Lemma positions_in_count t ws :
  len (positions_in t (enumerate ws)) = len (filter (λ w, w = t) ws).
Proof.
  unfold len. f_equal. induction ws as [|w ws IH] using rev_ind; [done|].
  rewrite enumerate_snoc, positions_in_snoc, filter_app, !length_app, IH.
  f_equal. rewrite filter_cons, filter_nil. by case_decide.
Qed.

Lemma inverted_index_lookup docs t :
  inverted_index (engine_after docs) !! t
  = (if decide (docs_containing t docs = []) then None
     else Some (postings_of t docs)).
Proof.
  pose proof (engine_after_repr docs) as H.
  pose proof (repr_index _ _ H t) as Hpost.
  pose proof (engine_after_keys docs t) as Hk.
  rewrite <- postings_of_ids, <- Hpost. unfold postings in *.
  destruct (inverted_index (engine_after docs) !! t) as [entries|]; cbn in *.
  - rewrite decide_False; [done|].
    intros Hnil%fmap_nil_inv. by apply Hk.
  - by rewrite decide_True.
Qed.

(** X4: the inverted index after any ingestion, entry by entry: a term is
    a key exactly when some document contains it, and its entries are one
    per such document, in ascending id order, each holding the positions
    of the term among the tokens of that document; those positions are
    strictly increasing and are exactly the zero-based offsets at which
    the term stands. *)
Theorem inverted_index_exact docs t :
  inverted_index (engine_after docs) !! t
  = (if decide (docs_containing t docs = []) then None
     else Some (postings_of t docs))
  ∧ (∀ ws p, p ∈ positions_in t (enumerate ws)
             ↔ 0 ≤ p ∧ ws !! Z.to_nat p = Some t)
  ∧ (∀ ws, StronglySorted Z.lt (positions_in t (enumerate ws))).
Proof.
  split_and!;
    [apply inverted_index_lookup | apply positions_in_elem | apply positions_in_sorted].
Qed.

(** ** The scorer, exactly *)

Lemma count_in_missing entries d : d ∉ entries.*1 → count_in entries d = 0.
Proof.
  induction entries as [|[d' ps] entries IH]; cbn; [done|].
  intros Hd. rewrite decide_False by set_solver. apply IH. set_solver.
Qed.

Lemma count_in_app l1 l2 d :
  count_in (l1 ++ l2) d
  = if decide (d ∈ l1.*1) then count_in l1 d else count_in l2 d.
Proof.
  induction l1 as [|[d' ps] l1 IH]; cbn.
  - rewrite decide_False; [done|]. apply not_elem_of_nil.
  - destruct (decide (d' = d)) as [->|Hne].
    + rewrite decide_True; [done|]. set_solver.
    + rewrite IH. clear IH. repeat case_decide; try done; exfalso; set_solver.
Qed.

Lemma count_in_postings_of t docs d :
  count_in (postings_of t docs) d
  = match lookup_doc docs d with
    | Some tc => len (positions_in t (enumerate (_tokenize tc.2)))
    | None => 0
    end.
Proof.
  induction docs as [|tc docs IH] using rev_ind.
  - unfold lookup_doc. by case_decide.
  - rewrite postings_of_snoc, count_in_app, lookup_doc_snoc, postings_of_ids.
    destruct (decide (d = len docs + 1)) as [->|Hne].
    + rewrite decide_False.
      2:{ intros (tc' & Hd%lookup_doc_range & _)%docs_containing_elem. lia. }
      case_decide; cbn; [by rewrite decide_True|].
      rewrite positions_in_unseen; [done|]. by rewrite enumerate_snd.
    + rewrite <- IH. case_decide as Hd; [done|].
      rewrite (count_in_missing (postings_of t docs)) by by rewrite postings_of_ids.
      case_decide; cbn; [by rewrite decide_False|done].
Qed.

Lemma _calculate_tf_exact docs t d :
  _calculate_tf t d (engine_after docs)
  = (Returns
       match lookup_doc docs d with
       | Some tc =>
           if decide (_tokenize tc.2 = []) then 0%R
           else (IZR (len (filter (λ w, w = t) (_tokenize tc.2)))
                 / IZR (len (_tokenize tc.2)))%R
       | None => 0%R
       end, engine_after docs).
Proof.
  pose proof (engine_after_repr docs) as H.
  rewrite _calculate_tf_run. do 2 f_equal. unfold tf_value.
  rewrite (repr_counts _ _ H), (repr_index _ _ H), count_in_postings_of.
  destruct (lookup_doc docs d) as [tc|]; cbn.
  - destruct (_tokenize tc.2) as [|w ws] eqn:Hws.
    + by rewrite decide_False, decide_True.
    + rewrite decide_True by (unfold len; cbn; lia).
      rewrite decide_False by done. by rewrite positions_in_count.
  - rewrite decide_True by done. unfold Rdiv. by rewrite Rmult_0_l.
Qed.

(** X5: [_calculate_tf] after any ingestion returns the number of
    occurrences of the term among the tokens of the document, over the
    number of tokens; 0 for a document without tokens and for an id that
    was never given. *)
Theorem term_frequency_exact docs t d :
  _calculate_tf t d (engine_after docs)
  = (Returns
       match lookup_doc docs d with
       | Some tc =>
           if decide (_tokenize tc.2 = []) then 0%R
           else (IZR (len (filter (λ w, w = t) (_tokenize tc.2)))
                 / IZR (len (_tokenize tc.2)))%R
       | None => 0%R
       end, engine_after docs).
Proof. apply _calculate_tf_exact. Qed.

(** X6: [_calculate_idf] after any ingestion returns the logarithm of the
    number of documents over the number of documents that contain the
    term; 0 for a term that no document contains. *)
Theorem inverse_document_frequency_exact docs t :
  _calculate_idf t (engine_after docs)
  = (Returns
       (if decide (docs_containing t docs = []) then 0%R
        else ln (IZR (len docs) / IZR (len (docs_containing t docs)))),
     engine_after docs).
Proof.
  pose proof (engine_after_repr docs) as H.
  rewrite _calculate_idf_run by by apply (repr_df_nonneg docs).
  do 2 f_equal. rewrite (repr_total docs), (repr_df _ _ H) by done.
  unfold idf_value. pose proof (docs_containing_length t docs) as Hle.
  destruct (docs_containing t docs) as [|d ds] eqn:Hd.
  - repeat case_decide; done.
  - repeat case_decide; try done; unfold len in *; cbn in *; lia.
Qed.

Lemma lookup_doc_app docs more d :
  d ≤ len docs → lookup_doc (docs ++ more) d = lookup_doc docs d.
Proof.
  intros Hd. unfold lookup_doc. case_decide; [|done].
  apply lookup_app_l. unfold len in Hd. lia.
Qed.

(** X7: ingesting more documents leaves the term frequencies of the
    earlier documents as they were. *)
Theorem term_frequency_stable docs more t d (Hd : d ≤ len docs) :
  (_calculate_tf t d (engine_after (docs ++ more))).1
  = (_calculate_tf t d (engine_after docs)).1.
Proof. by rewrite !_calculate_tf_exact, lookup_doc_app. Qed.

Lemma term_frequency_stable_witness :
  (_calculate_tf "cat" 1 (engine_after (corpus_cats ++ corpus_xy))).1
  = (_calculate_tf "cat" 1 (engine_after corpus_cats)).1.
Proof. apply (term_frequency_stable corpus_cats corpus_xy "cat" 1). vm_compute. discriminate. Defined.

(** ** What [search] returns *)

Lemma numbered_NoDup docs : NoDup (numbered docs).*1.
Proof.
  unfold numbered.
  induction docs as [|tc docs IH] using rev_ind; [constructor|].
  rewrite imap_app, fmap_app. cbn. apply NoDup_app. split; [done|].
  split; [|apply NoDup_singleton].
  intros d ([d' tc'] & -> & Hin)%list_elem_of_fmap.
  apply (numbered_elem docs), lookup_doc_range in Hin. cbn.
  rewrite list_elem_of_singleton. unfold len in Hin. lia.
Qed.

Lemma matching_NoDup query_words docs : NoDup (matching query_words docs).
Proof.
  eapply sublist_NoDup; [apply numbered_NoDup | apply fmap_sublist, sublist_filter].
Qed.

Lemma matching_elem query_words docs d :
  d ∈ matching query_words docs
  ↔ ∃ w tc, w ∈ query_words ∧ lookup_doc docs d = Some tc ∧ w ∈ _tokenize tc.2.
Proof.
  unfold matching. rewrite list_elem_of_fmap. split.
  - intros ([d' tc] & -> & [Hex Hin]%list_elem_of_filter). cbn in *.
    apply Exists_exists in Hex as (w & Hw & Ht).
    exists w, tc. by rewrite <- numbered_elem.
  - intros (w & tc & Hw & Hd%numbered_elem & Ht). exists (d, tc).
    split; [done|]. apply list_elem_of_filter. split; [|done].
    apply Exists_exists. eauto.
Qed.

Lemma candidates_matching docs e query_words :
  repr docs e → candidates_of e query_words = list_to_set (matching query_words docs).
Proof.
  intros H. apply set_eq. intros d.
  rewrite candidates_of_elem, elem_of_list_to_set, matching_elem.
  split.
  - intros (w & Hw & Hd). rewrite (repr_postings _ _ H) in Hd.
    apply docs_containing_elem in Hd as (tc & ? & ?). eauto.
  - intros (w & tc & Hw & Hd & Ht). exists w. split; [done|].
    rewrite (repr_postings _ _ H). apply docs_containing_elem. eauto.
Qed.

Lemma ranked_ids docs e query :
  repr docs e → (ranked e query).*1 ≡ₚ matching (_tokenize query) docs.
Proof.
  intros H. unfold ranked. rewrite sorted_by_score_perm.
  rewrite <- list_fmap_compose, (list_fmap_ext _ Datatypes.id) by done.
  rewrite list_fmap_id, (candidates_matching docs) by done.
  apply elements_list_to_set, matching_NoDup.
Qed.

Lemma shown_ids e top rs :
  Forall2 (shown e) top rs → SearchResult.id <$> rs = top.*1.
Proof.
  induction 1 as [|entry r top rs (doc & _ & ->) _ IH]; cbn; [done|].
  by rewrite IH.
Qed.

Lemma shown_functional e top rs rs' :
  Forall2 (shown e) top rs → Forall2 (shown e) top rs' → rs = rs'.
Proof.
  intros Hrs. revert rs'.
  induction Hrs as [|entry r top rs (doc & Hdoc & ->) _ IH]; intros rs' Hrs'.
  - by apply Forall2_nil_inv_l in Hrs'.
  - apply Forall2_cons_inv_l in Hrs' as (r' & rs'' & (doc' & Hdoc' & ->) & Hrs' & ->).
    rewrite Hdoc in Hdoc'. injection Hdoc' as <-. f_equal. by apply IH.
Qed.

(** X8: the number of results of [search]: [top_k] or the number of matching documents,
    whichever is smaller, when [top_k] is not negative; all but the last
    [-top_k] of the matching documents when it is. *)
Theorem search_result_count docs query top_k :
  ∃ rs, search query top_k (engine_after docs) = (Returns rs, engine_after docs)
        ∧ len rs
          = if decide (0 ≤ top_k)
            then Z.min top_k (len (matching (_tokenize query) docs))
            else Z.max 0 (len (matching (_tokenize query) docs) + top_k).
Proof.
  pose proof (engine_after_repr docs) as H.
  destruct (search_run docs _ query top_k H) as (rs & Hrun & Hrs).
  exists rs. split; [done|].
  apply Forall2_length in Hrs. unfold len at 1. rewrite <- Hrs.
  fold (len (slice_to (ranked (engine_after docs) query) top_k)).
  rewrite slice_to_length.
  assert (len (ranked (engine_after docs) query)
          = len (matching (_tokenize query) docs)) as ->; [|done].
  unfold len. f_equal.
  rewrite <- (length_fmap fst (ranked _ _)). by rewrite (ranked_ids docs).
Qed.

(** X9: every result of [search] is a stored document, shown with the id, title and
    content it was ingested with and the snippet of its content, and it
    contains at least one of the query words; no document is returned
    twice. *)
Theorem search_results_sound docs query top_k :
  ∃ rs, search query top_k (engine_after docs) = (Returns rs, engine_after docs)
        ∧ NoDup (SearchResult.id <$> rs)
        ∧ Forall (λ r, ∃ tc,
            lookup_doc docs (SearchResult.id r) = Some tc
            ∧ SearchResult.title r = tc.1
            ∧ SearchResult.content r = tc.2
            ∧ SearchResult.snippet r = make_snippet tc.2
            ∧ ∃ w, w ∈ _tokenize query ∧ w ∈ _tokenize tc.2) rs.
Proof.
  pose proof (engine_after_repr docs) as H.
  destruct (search_run docs _ query top_k H) as (rs & Hrun & Hrs).
  exists rs. split; [done|].
  destruct (slice_to_take (ranked (engine_after docs) query) top_k) as [n Hn].
  rewrite Hn in Hrs. split.
  - rewrite (shown_ids _ _ _ Hrs), fmap_take.
    eapply sublist_NoDup; [|apply sublist_take].
    rewrite (ranked_ids docs) by done. apply matching_NoDup.
  - apply Forall_forall. intros r Hr.
    apply list_elem_of_lookup in Hr as [i Hi].
    destruct (Forall2_lookup_r _ _ _ _ _ Hrs Hi) as (entry & Hentry & doc & Hdoc & ->).
    apply lookup_take_Some in Hentry as [Hentry%list_elem_of_lookup_2 _].
    destruct (ranked_elem docs _ query entry H Hentry) as (w & tc & Hw & Htc & Ht).
    rewrite (repr_documents _ _ H), getitem_stored, Htc in Hdoc.
    injection Hdoc as <-. exists tc. cbn. eauto 10.
Qed.

(** X10: with room for all of them ([top_k] at least their number), the
    results of [search] are exactly the documents that contain a query word, each once. *)
Theorem search_results_complete docs query top_k
    (Hroom : len (matching (_tokenize query) docs) ≤ top_k) :
  ∃ rs, search query top_k (engine_after docs) = (Returns rs, engine_after docs)
        ∧ SearchResult.id <$> rs ≡ₚ matching (_tokenize query) docs.
Proof.
  pose proof (engine_after_repr docs) as H.
  destruct (search_run docs _ query top_k H) as (rs & Hrun & Hrs).
  exists rs. split; [done|].
  rewrite (shown_ids _ _ _ Hrs). unfold slice_to.
  assert (length (ranked (engine_after docs) query)
          = length (matching (_tokenize query) docs)) as Hlen.
  { rewrite <- (length_fmap fst (ranked _ _)). by rewrite (ranked_ids docs). }
  rewrite decide_True by (unfold len in Hroom; lia).
  rewrite take_ge by (unfold len in Hroom; lia).
  by apply ranked_ids.
Qed.

Lemma search_results_complete_witness :
  ∃ rs, search "dog cat" 5 (engine_after corpus_cats)
        = (Returns rs, engine_after corpus_cats)
        ∧ SearchResult.id <$> rs ≡ₚ matching (_tokenize "dog cat") corpus_cats.
Proof. apply (search_results_complete corpus_cats "dog cat" 5). vm_compute. discriminate. Defined.

Lemma search_no_match e query top_k :
  (∀ w, w ∈ _tokenize query → inverted_index e !! w = None) →
  search query top_k e = (Returns [], e).
Proof.
  intros Hnone.
  unfold search. case_decide; [done|].
  unfold mbind, M_bind. rewrite find_candidates_run.
  rewrite decide_True; [done|].
  apply set_eq. intros d. rewrite candidates_of_elem. split; [|set_solver].
  intros (w & Hw & Hd). unfold postings in Hd. rewrite (Hnone w Hw) in Hd.
  by apply elem_of_nil in Hd.
Qed.

(** X11: on every engine, a query none of whose words is a key of the
    index (so also a query without words) returns no result and leaves
    the engine as it was. *)
Theorem search_without_match e query top_k
    (Hnone : ∀ w, w ∈ _tokenize query → inverted_index e !! w = None) :
  search query top_k e = (Returns [], e).
Proof. by apply search_no_match. Qed.

Lemma search_without_match_witness :
  search "bird, fish?" 10 (engine_after corpus_cats)
  = (Returns [], engine_after corpus_cats).
Proof.
  apply search_without_match. intros w Hw.
  vm_compute in Hw. repeat (apply elem_of_cons in Hw as [->|Hw]; [by vm_compute|]).
  by apply elem_of_nil in Hw.
Defined.

Lemma docs_containing_all t docs :
  (∀ tc, tc ∈ docs → t ∈ _tokenize tc.2) →
  len (docs_containing t docs) = len docs.
Proof.
  induction docs as [|tc docs IH] using rev_ind; intros Hall; [done|].
  rewrite docs_containing_snoc, decide_True by (apply Hall; set_solver).
  unfold len in *. rewrite !length_app. cbn.
  rewrite !Nat2Z.inj_add, IH; [done|]. intros tc' Htc'. apply Hall. set_solver.
Qed.

Lemma round_zero ndigits : round 0 ndigits = 0%R.
Proof.
  unfold round. rewrite Rmult_0_l.
  assert (round_half_even 0 = 0) as ->; [|unfold Rdiv; by rewrite Rmult_0_l].
  unfold round_half_even. rewrite (ZfloorZ 0).
  destruct (Rlt_dec _ _) as [|Hn]; [done|]. exfalso. apply Hn. lra.
Qed.

(** X12: a word that every document contains has IDF 0: when every query word
    is in every document, all results come with score 0. *)
Theorem ubiquitous_terms_score_zero docs query top_k
    (Hall : ∀ w tc, w ∈ _tokenize query → tc ∈ docs → w ∈ _tokenize tc.2) :
  ∃ rs, search query top_k (engine_after docs) = (Returns rs, engine_after docs)
        ∧ Forall (λ r, SearchResult.score r = 0%R) rs.
Proof.
  pose proof (engine_after_repr docs) as H.
  destruct (search_run docs _ query top_k H) as (rs & Hrun & Hrs).
  exists rs. split; [done|].
  apply Forall_fmap with (f := SearchResult.score) (P := λ s, s = 0%R).
  rewrite (shown_scores _ _ _ Hrs). apply Forall_fmap, Forall_fmap.
  apply Forall_forall. intros [d s] Hin. cbn.
  destruct (slice_to_take (ranked (engine_after docs) query) top_k) as [n Hn].
  rewrite Hn in Hin. apply elem_of_take in Hin as (i & Hin%list_elem_of_lookup_2 & _).
  unfold ranked in Hin. rewrite sorted_by_score_perm in Hin.
  apply list_elem_of_fmap in Hin as (d' & [= -> ->] & _).
  assert (score_of (engine_after docs) (_tokenize query) d' = 0%R) as ->;
    [|apply round_zero].
  unfold score_of.
  assert (Hfold : ∀ ws, (∀ w, w ∈ ws → w ∈ _tokenize query) →
    foldl (λ score word,
        (score + tf_value (engine_after docs) word d'
                 * idf_value (len (documents (engine_after docs)))
                     (df (engine_after docs) word))%R) 0%R ws = 0%R);
    [|by apply Hfold].
  induction ws as [|w ws IH] using rev_ind; intros Hws; [done|].
  rewrite foldl_app. cbn. rewrite IH by (intros w' Hw'; apply Hws; set_solver).
  rewrite idf_value_zero; [lra|]. right.
  rewrite (repr_total docs), (repr_df _ _ H) by done.
  apply docs_containing_all. intros tc Htc. apply Hall; [|done].
  apply Hws. set_solver.
Qed.

Lemma ubiquitous_terms_score_zero_witness :
  ∃ rs, search "The" 10 (engine_after corpus_cat_dog)
        = (Returns rs, engine_after corpus_cat_dog)
        ∧ Forall (λ r, SearchResult.score r = 0%R) rs.
Proof.
  apply (ubiquitous_terms_score_zero corpus_cat_dog "The" 10).
  intros w tc Hw Htc. vm_compute in Hw.
  apply list_elem_of_singleton in Hw as ->. unfold corpus_cat_dog in Htc.
  repeat (apply elem_of_cons in Htc as [->|Htc];
          [vm_compute; apply list_elem_of_here|]).
  by apply elem_of_nil in Htc.
Defined.

(** X13: asking [search] for fewer results gives a prefix of what asking
    for more gives. *)
Theorem search_top_k_prefix docs query k1 k2 (Hk : 0 ≤ k1 ≤ k2) :
  ∃ rs1 rs2,
    search query k1 (engine_after docs) = (Returns rs1, engine_after docs)
    ∧ search query k2 (engine_after docs) = (Returns rs2, engine_after docs)
    ∧ rs1 = take (Z.to_nat k1) rs2.
Proof.
  pose proof (engine_after_repr docs) as H.
  destruct (search_run docs _ query k1 H) as (rs1 & Hrun1 & Hrs1).
  destruct (search_run docs _ query k2 H) as (rs2 & Hrun2 & Hrs2).
  exists rs1, rs2. split; [done|]. split; [done|].
  apply (shown_functional _ _ _ _ Hrs1).
  unfold slice_to in Hrs2 |- *. rewrite decide_True in Hrs2 by lia.
  rewrite decide_True by lia.
  replace (take (Z.to_nat k1) (ranked (engine_after docs) query))
    with (take (Z.to_nat k1) (take (Z.to_nat k2) (ranked (engine_after docs) query))).
  - by apply Forall2_take.
  - rewrite take_take. f_equal. lia.
Qed.

Lemma search_top_k_prefix_witness :
  ∃ rs1 rs2,
    search "cat" 1 (engine_after corpus_cats) = (Returns rs1, engine_after corpus_cats)
    ∧ search "cat" 2 (engine_after corpus_cats) = (Returns rs2, engine_after corpus_cats)
    ∧ rs1 = take (Z.to_nat 1) rs2.
Proof. apply (search_top_k_prefix corpus_cats "cat" 1 2). lia. Defined.

(** ** Statistics *)




Lemma inverted_index_dom docs :
  dom (inverted_index (engine_after docs))
  = list_to_set (docs ≫= λ tc, _tokenize tc.2).
Proof.
  apply set_eq. intros t.
  rewrite elem_of_dom, elem_of_list_to_set, list_elem_of_bind.
  rewrite (inverted_index_lookup docs t).
  case_decide as Hnil.
  - split; [by intros [? ?]|].
    intros (tc & Ht & Htc). exfalso.
    by apply (proj1 (docs_containing_nil t docs) Hnil tc).
  - split; [intros _|by eauto].
    destruct (docs_containing t docs) as [|d ds] eqn:Hd; [done|].
    assert (d ∈ docs_containing t docs) as Hin by (rewrite Hd; set_solver).
    apply docs_containing_elem in Hin as (tc & Htc & Ht).
    exists tc. split; [done|].
    unfold lookup_doc in Htc. case_decide; [|done].
    by apply list_elem_of_lookup_2 in Htc.
Qed.


(** ** Snippets *)

Lemma substring_length n s :
  String.length (substring 0 n s) = Nat.min n (String.length s).
Proof.
  revert n. induction s as [|c s IH]; intros [|n]; cbn; try done.
  by rewrite IH.
Qed.

Lemma append_length (s t : string) :
  String.length (s +:+ t) = (String.length s + String.length t)%nat.
Proof. induction s as [|c s IH]; [done|]. rewrite append_cons. cbn. by rewrite IH. Qed.

Lemma substring_get n s t i :
  (i < n)%nat → (i < String.length s)%nat →
  String.get i (substring 0 n s +:+ t) = String.get i s.
Proof.
  revert n i. induction s as [|c s IH]; intros [|n] [|i] Hn Hs; cbn in *; try lia.
  - done.
  - rewrite append_cons. cbn. apply IH; lia.
Qed.

(** X15: the snippet of a content of at most 200 characters is the content; of
    a longer one it is 203 characters long and starts with the first 200
    characters of the content. *)
Theorem snippet_shape content :
  (String.length content ≤ 200)%nat ∧ make_snippet content = content
  ∨ (200 < String.length content)%nat
    ∧ String.length (make_snippet content) = 203%nat
    ∧ ∀ i, (i < 200)%nat →
           String.get i (make_snippet content) = String.get i content.
Proof.
  unfold make_snippet. case_decide as Hlen.
  - right. split; [lia|]. split.
    + rewrite append_length, substring_length.
      change (String.length "...") with 3%nat. lia.
    + intros i Hi. apply substring_get; lia.
  - left. split; [lia | done].
Qed.

Lemma lstrip_cases s :
  blank s ∧ Api.lstrip s = EmptyString
  ∨ str_forall isspace s = false
    ∧ ∃ c s', Api.lstrip s = String c s' ∧ isspace c = false.
Proof.
  unfold blank. induction s as [|c s IH]; cbn; [by left|].
  destruct (isspace c) eqn:Hc; cbn; [done|].
  right. split; [done|]. by exists c, s.
Qed.

Lemma rstrip_nonspace c s : isspace c = false → Api.rstrip (String c s) ≠ EmptyString.
Proof. intros Hc. cbn. rewrite Hc. by destruct (Api.rstrip s). Qed.

Lemma strip_empty q : Api.strip q = EmptyString ↔ blank q.
Proof.
  unfold Api.strip.
  destruct (lstrip_cases q) as [[Hb ->]|[Hnb (c & s' & -> & Hc)]].
  - done.
  - split.
    + intros Hs. by apply rstrip_nonspace in Hs.
    + unfold blank. congruence.
Qed.

(** X16: the empty-query shortcut of [GET /search] changes nothing in the
    results: on every engine the handler answers with the results of
    [SearchEngine.search] for the same arguments, echoes the query, and a
    count, when present, is the number of results. *)
Theorem api_search_agrees e q top_k :
  outcome_map Api.results (Api.search q top_k e).1 = (search q top_k e).1
  ∧ (Api.search q top_k e).2 = (search q top_k e).2
  ∧ ∀ response, (Api.search q top_k e).1 = Returns response →
      Api.query response = q
      ∧ ∀ n, Api.count response = Some n → n = len (Api.results response).
Proof.
  unfold Api.search. case_decide as Hq.
  - apply strip_empty, tokenize_blank_text in Hq.
    rewrite search_no_match.
    2:{ intros w Hw. rewrite Hq in Hw. by apply elem_of_nil in Hw. }
    cbn. split_and!; [done..|]. by intros response [= <-].
  - unfold mbind, M_bind. destruct (search q top_k e) as [[rs|x] e']; cbn.
    + split_and!; [done..|]. intros response [= <-]. cbn.
      split; [done|]. by intros n [= <-].
    + done.
Qed.

Lemma get_all_documents_run docs :
  get_all_documents (engine_after docs)
  = (Returns (imap (λ i tc, Document.mk (Z.of_nat i + 1) tc.1 tc.2) docs),
     engine_after docs).
Proof.
  unfold get_all_documents. run.
  rewrite (repr_documents _ _ (engine_after_repr docs)).
  do 2 f_equal. unfold OrderedDict.values, numbered.
  rewrite <- !list_fmap_compose, fmap_imap. done.
Qed.

(** X17: posting a document and then listing: [POST /documents] answers
    with the next id and the title it was given, and [GET /documents]
    afterwards lists what it listed before followed by the new record,
    with a count one larger. *)
Theorem api_add_then_list docs title content :
  ∃ e' before,
    Api.add_document title content (engine_after docs)
    = (Returns (Api.mkAddResponse (len docs + 1)
                  "Document indexed successfully" title), e')
    ∧ Api.get_all_documents (engine_after docs)
      = (Returns (Api.mkListResponse before (len docs)), engine_after docs)
    ∧ Api.get_all_documents e'
      = (Returns (Api.mkListResponse
                    (before ++ [Document.mk (len docs + 1) title content])
                    (len docs + 1)), e').
Proof.
  exists (engine_after (docs ++ [(title, content)])).
  exists (imap (λ i tc, Document.mk (Z.of_nat i + 1) tc.1 tc.2) docs).
  assert (Hlen : ∀ ds : list (string * string),
    len (imap (λ i tc, Document.mk (Z.of_nat i + 1) tc.1 tc.2) ds) = len ds).
  { intros ds. unfold len. by rewrite length_imap. }
  split_and!.
  - unfold Api.add_document, mbind, M_bind.
    destruct (repr_add_document docs _ title content (engine_after_repr docs))
      as (e' & Hrun & _).
    rewrite engine_after_snoc, Hrun. done.
  - unfold Api.get_all_documents, mbind, M_bind.
    rewrite get_all_documents_run. cbn. by rewrite Hlen.
  - unfold Api.get_all_documents, mbind, M_bind.
    rewrite get_all_documents_run. cbn. rewrite Hlen, imap_app. cbn.
    rewrite Nat.add_0_r. unfold len. rewrite length_app. cbn.
    replace (Z.of_nat (length docs + 1)) with (Z.of_nat (length docs) + 1) by lia.
    done.
Qed.

(** ** The index against the lengths *)

Lemma positions_held_count_in entries d :
  NoDup entries.*1 → positions_held entries d = count_in entries d.
Proof.
  unfold positions_held.
  induction entries as [|[d' ps] entries IH]; [done|].
  rewrite fmap_cons. intros [Hd' Hnd]%NoDup_cons.
  rewrite filter_cons. cbn [fst count_in].
  destruct (decide (d' = d)) as [->|Hne]; [|by apply IH].
  rewrite fmap_cons. cbn [foldr snd]. rewrite IH, count_in_missing by done. lia.
Qed.

Lemma sum_app (l1 l2 : list Z) :
  foldr Z.add 0 (l1 ++ l2) = foldr Z.add 0 l1 + foldr Z.add 0 l2.
Proof. induction l1 as [|x l1 IH]; cbn; lia. Qed.

Lemma sum_indicator (w : string) (K : list string) :
  NoDup K → w ∈ K →
  foldr Z.add 0 ((λ t, if decide (w = t) then 1 else 0) <$> K) = 1.
Proof.
  induction 1 as [|t K Ht Hnd IH]; cbn; [by intros ?%elem_of_nil|].
  intros [->|Hw]%elem_of_cons.
  - rewrite decide_True by done.
    assert (foldr Z.add 0 ((λ t0, if decide (t = t0) then 1 else 0) <$> K) = 0) as ->; [|done].
    clear IH Hnd. induction K as [|t' K IH]; cbn; [done|].
    rewrite decide_False by set_solver. rewrite IH; [done|set_solver].
  - rewrite decide_False by (intros ->; done). by rewrite IH.
Qed.

Lemma sum_occurrences (ws K : list string) :
  NoDup K → (∀ w, w ∈ ws → w ∈ K) →
  foldr Z.add 0 ((λ t, len (filter (λ w, w = t) ws)) <$> K) = len ws.
Proof.
  intros Hnd. induction ws as [|w ws IH]; intros Hin.
  - cbn. clear Hnd Hin. induction K as [|t K IH]; cbn; [done|]. by rewrite IH.
  - assert (foldr Z.add 0 ((λ t, len (filter (λ w0, w0 = t) (w :: ws))) <$> K)
            = foldr Z.add 0 ((λ t, if decide (w = t) then 1 else 0) <$> K)
              + foldr Z.add 0 ((λ t, len (filter (λ w0, w0 = t) ws)) <$> K)) as ->.
    { clear. induction K as [|t K IH]; cbn -[filter]; [done|].
      rewrite IH, filter_cons. unfold len. case_decide; cbn; lia. }
    rewrite sum_indicator, IH; [| set_solver | done | set_solver].
    unfold len. cbn. lia.
Qed.

(** X18: after any ingestion, the positions that the index holds for a
    document, summed over all terms, are as many as the recorded length
    of the document (none for an id that was never given). *)
Theorem index_matches_lengths docs d :
  indexed_positions (engine_after docs) d
  = default 0 (doc_word_counts (engine_after docs) !! d).
Proof.
  pose proof (engine_after_repr docs) as H.
  unfold indexed_positions.
  set (f := λ t : string, match lookup_doc docs d with
                          | Some tc => len (filter (λ w, w = t) (_tokenize tc.2))
                          | None => 0
                          end).
  assert (Hext : (λ kv : string * list (Z * list Z), positions_held kv.2 d)
                   <$> map_to_list (inverted_index (engine_after docs))
                 = f <$> (map_to_list (inverted_index (engine_after docs))).*1).
  { rewrite <- list_fmap_compose. apply list_fmap_ext.
    intros i [t entries] Hi. unfold compose. cbn [fst snd].
    apply list_elem_of_lookup_2, elem_of_map_to_list in Hi.
    rewrite inverted_index_lookup in Hi. case_decide; [done|].
    injection Hi as <-.
    rewrite positions_held_count_in
      by (rewrite postings_of_ids; apply docs_containing_NoDup).
    rewrite count_in_postings_of. unfold f.
    destruct (lookup_doc docs d); [apply positions_in_count | done]. }
  rewrite Hext, (repr_counts _ _ H). unfold f.
  destruct (lookup_doc docs d) as [tc|] eqn:Htc; cbn.
  - apply sum_occurrences; [apply NoDup_fst_map_to_list|].
    intros w Hw.
    assert (w ∈ dom (inverted_index (engine_after docs))) as Hdom.
    { rewrite inverted_index_dom, elem_of_list_to_set, list_elem_of_bind.
      exists tc. split; [done|].
      unfold lookup_doc in Htc. case_decide; [|done].
      by apply list_elem_of_lookup_2 in Htc. }
    apply elem_of_dom in Hdom as [entries Hentries].
    apply list_elem_of_fmap. exists (w, entries). split; [done|].
    by apply elem_of_map_to_list.
  - generalize (map_to_list (inverted_index (engine_after docs))).*1.
    intros K. induction K as [|t K IH]; cbn; [done|]. by rewrite IH.
Qed.
